(** * rerec: lexer, parser and C code generator of the Rerechan02 compiler

    A shallow embedding of [src/compiler/rerec.py].  Every Python class is a
    Rocq module: its instance attributes are a record, its methods are
    computations in a small monad that threads the instance ([self]), an
    exception and a loop budget.

    Python [str] values are modelled as [string]; a character is a code point
    below 256, and [isspace], [isalpha] and [isalnum] are Python's tables for
    that range. *)

From Stdlib Require Import Ascii String ZArith Lia.
From stdpp Require Import base option list strings gmap.

(** ** Exceptions and the method monad *)

(** The three exception classes the pipeline can raise.  [IndexError] comes
    from indexing a Python list out of range. *)
Inductive exn : Type :=
| SyntaxError (msg : string)
| NotImplementedError (msg : string)
| IndexError (msg : string).

(** [isinstance(e, SyntaxError)]: [NotImplementedError] derives from
    [RuntimeError] and [IndexError] from [LookupError], neither from
    [SyntaxError]. *)
Definition is_SyntaxError (e : exn) : bool :=
  match e with SyntaxError _ => true | _ => false end.

(** Result of running a method on an instance of state type [St]: it returns
    a value, raises, or exhausts the budget given to a [while] loop.  The
    instance is kept in the first two cases, since methods mutate it in
    place. *)
Inductive outcome (St A : Type) : Type :=
| Ret (a : A) (s : St)
| Raise (e : exn) (s : St)
| OutOfFuel.
Arguments Ret {St A} a s.
Arguments Raise {St A} e s.
Arguments OutOfFuel {St A}.

Definition M (St A : Type) : Type := St -> outcome St A.

Global Instance M_ret {St} : MRet (M St) := fun A a s => Ret a s.

Global Instance M_bind {St} : MBind (M St) :=
  fun A B k m s =>
    match m s with
    | Ret a s' => k a s'
    | Raise e s' => Raise e s'
    | OutOfFuel => OutOfFuel
    end.

Definition raise {St A} (e : exn) : M St A := fun s => Raise e s.

(** The outcome of a call seen from a caller that no longer uses the
    instance. *)
Definition detach {St A} (o : outcome St A) : outcome unit A :=
  match o with
  | Ret a _ => Ret a tt
  | Raise e _ => Raise e tt
  | OutOfFuel => OutOfFuel
  end.

(** The instance as the call left it. *)
Definition final_state {St A} (o : outcome St A) : option St :=
  match o with
  | Ret _ s => Some s
  | Raise _ s => Some s
  | OutOfFuel => None
  end.

(** [while cond(self): acc = body(acc)], run for at most [fuel] iterations. *)
Fixpoint while_ {St A} (fuel : nat) (cond : St -> bool) (body : A -> M St A)
    (acc : A) : M St A :=
  fun s =>
    if cond s then
      match fuel with
      | O => OutOfFuel
      | S fuel' =>
          match body acc s with
          | Ret acc' s' => while_ fuel' cond body acc' s'
          | Raise e s' => Raise e s'
          | OutOfFuel => OutOfFuel
          end
      end
    else Ret acc s.

(** [for x in l: body(x)]. *)
Fixpoint for_ {St A} (l : list A) (body : A -> M St unit) : M St unit :=
  match l with
  | [] => mret tt
  | x :: l' => body x;; for_ l' body
  end.

(** ** Strings *)

Definition chr (n : nat) : ascii := ascii_of_nat n.

(** The double quote character. *)
Definition dquote : ascii := chr 34.

(** The line feed character. *)
Definition newline : ascii := chr 10.

Definition char_in (c : ascii) (lo hi : nat) : bool :=
  (lo <=? nat_of_ascii c) && (nat_of_ascii c <=? hi).

Definition char_eqb (c d : ascii) : bool := Ascii.eqb c d.

(** [str.isspace] on one character. *)
Definition isspace (c : ascii) : bool :=
  char_in c 9 13 || char_in c 28 32 || char_in c 133 133 || char_in c 160 160.

(** [str.isalpha] on one character. *)
Definition isalpha (c : ascii) : bool :=
  char_in c 65 90 || char_in c 97 122 || char_in c 170 170
  || char_in c 181 181 || char_in c 186 186 || char_in c 192 214
  || char_in c 216 246 || char_in c 248 255.

(** [str.isalnum] on one character: alphabetic, decimal, digit or numeric. *)
Definition isalnum (c : ascii) : bool :=
  isalpha c || char_in c 48 57 || char_in c 178 179 || char_in c 185 185
  || char_in c 188 190.

(** [str.upper] on the letters [a]..[z]; other characters are kept.  The
    lexer applies it to reserved words only. *)
Definition upper_char (c : ascii) : ascii :=
  if char_in c 97 122 then chr (nat_of_ascii c - 32) else c.

Fixpoint upper (s : string) : string :=
  match s with
  | EmptyString => EmptyString
  | String c s' => String (upper_char c) (upper s')
  end.

(** [sep.join(l)]. *)
Fixpoint join (sep : string) (l : list string) : string :=
  match l with
  | [] => EmptyString
  | [x] => x
  | x :: l' => x +:+ sep +:+ join sep l'
  end.

(** [s * n] for a string [s] and an integer [n]; empty when [n <= 0]. *)
Definition str_mul (s : string) (n : Z) : string :=
  Nat.iter (Z.to_nat n) (fun acc => s +:+ acc) EmptyString.

Definition str_of_char (c : ascii) : string := String c EmptyString.

(** [s[n:]] *)
Fixpoint sdrop (n : nat) (s : string) : string :=
  match n, s with
  | O, _ => s
  | S n', String _ s' => sdrop n' s'
  | S _, EmptyString => EmptyString
  end.

Definition shead (s : string) : option ascii :=
  match s with
  | String c _ => Some c
  | EmptyString => None
  end.

Definition stail (s : string) : string :=
  match s with
  | String _ s' => s'
  | EmptyString => EmptyString
  end.

(** The longest prefix of [s] whose characters all satisfy [p], and what
    follows it. *)
Fixpoint take_while (p : ascii -> bool) (s : string) : string :=
  match s with
  | String c s' => if p c then String c (take_while p s') else EmptyString
  | EmptyString => EmptyString
  end.

Fixpoint drop_while (p : ascii -> bool) (s : string) : string :=
  match s with
  | String c s' => if p c then drop_while p s' else s
  | EmptyString => EmptyString
  end.

Fixpoint sforallb (p : ascii -> bool) (s : string) : bool :=
  match s with
  | String c s' => p c && sforallb p s'
  | EmptyString => true
  end.

(** ** Tokens and syntax trees *)

Record Token : Type := mkToken { type : string; value : string }.

(** [Token.__repr__]. *)
Definition repr (t : Token) : string :=
  "Token(" +:+ type t +:+ ", '" +:+ value t +:+ "')".

(** The expression and statement nodes the parser builds.  [Call.args] and
    [Return.value] are annotated [Node] in the source; [StringLiteral] is
    the only node [parse_expression] returns, and [Call] and [Return] are
    the only ones [parse_statement] returns. *)
Inductive Expression : Type :=
| StringLiteral (value : string).

Inductive Statement : Type :=
| Call (func : string) (args : list Expression)
| Return (value : Expression).

(** The dataclasses [Function] and [Module]; the field [name] of each is
    [fname] and [mname] here. *)
Record Function_ : Type := mkFunction {
  fname : string;
  params : list (string * string);
  returns : string;
  body : list Statement
}.

Record Module_ : Type := mkModule {
  mname : string;
  imports : list string;
  functions : list Function_
}.

Definition expr_value (e : Expression) : string :=
  match e with StringLiteral v => v end.

(** ** Lexer *)

Module Lexer.

Definition KEYWORDS : gset string :=
  {[ "module"; "import"; "func"; "return" ]}.

Definition PUNCTUATION : gset ascii :=
  {[ ";"; "{"; "}"; "("; ")"; ","; "."; ":" ]}%char.

Record t : Type := mk {
  source : string;
  pos : nat;
  current_char : option ascii
}.

Definition init (src : string) : t :=
  mk src 0 (if bool_decide (src = EmptyString) then None else String.get 0 src).

Definition advance : M t unit :=
  fun l =>
    let pos' := pos l + 1 in
    if pos' <? String.length (source l)
    then Ret tt (mk (source l) pos' (String.get pos' (source l)))
    else Ret tt (mk (source l) pos' None).

(** Iterations granted to a loop entered at [l]: every iteration of every
    loop of the lexer advances by a character. *)
Definition budget (l : t) : nat := S (String.length (source l) - pos l).

Definition current_is (p : ascii -> bool) (l : t) : bool :=
  match current_char l with
  | Some c => p c
  | None => false
  end.

Definition skip_whitespace : M t unit :=
  fun l => while_ (budget l) (current_is isspace) (fun _ => advance) tt l.

Definition is_ident_char (c : ascii) : bool :=
  isalnum c || char_eqb c "_".

(** [result += self.current_char]; the loops run it only while
    [current_char] is a character. *)
Definition append_current (result : string) : M t string :=
  fun l =>
    match current_char l with
    | Some c => Ret (result +:+ str_of_char c) l
    | None => Ret result l
    end.

Definition get_identifier : M t string :=
  fun l =>
    while_ (budget l) (current_is is_ident_char)
      (fun result => result' ← append_current result; advance;; mret result')
      EmptyString l.

Definition get_string : M t string :=
  advance;;
  result ← (fun l =>
    while_ (budget l) (current_is (fun c => negb (char_eqb c dquote)))
      (fun result => result' ← append_current result; advance;; mret result')
      EmptyString l);
  advance;;
  mret (str_of_char dquote +:+ result +:+ str_of_char dquote).

(** [self.current_char == '/' and self.pos + 1 < len(self.source) and
    self.source[self.pos+1] == '/'] *)
Definition at_comment (l : t) : bool :=
  current_is (fun c => char_eqb c "/") l
  && (pos l + 1 <? String.length (source l))
  && match String.get (pos l + 1) (source l) with
     | Some d => char_eqb d "/"
     | None => false
     end.

(** The inner loop of the comment branch of [get_next_token]:
    [while self.current_char is not None and self.current_char != '\n'] *)
Definition skip_comment : M t unit :=
  fun l =>
    while_ (budget l) (current_is (fun c => negb (char_eqb c newline)))
      (fun _ => advance) tt l.

Definition EOF : Token := mkToken "EOF" EmptyString.

(** The [while self.current_char is not None] loop of [get_next_token];
    every [continue] and the final [self.advance()] start a new
    iteration. *)
Fixpoint get_next_token_loop (fuel : nat) : M t Token :=
  fun l =>
    match current_char l with
    | None => Ret EOF l
    | Some c =>
        match fuel with
        | O => OutOfFuel
        | S fuel' =>
            if isspace c then
              (skip_whitespace;; get_next_token_loop fuel') l
            else if at_comment l then
              (skip_comment;; get_next_token_loop fuel') l
            else if isalpha c || char_eqb c "_" then
              (ident ← get_identifier;
               if bool_decide (ident ∈ KEYWORDS)
               then mret (mkToken (upper ident) ident)
               else mret (mkToken "IDENT" ident)) l
            else if char_eqb c dquote then
              (s ← get_string; mret (mkToken "STRING" s)) l
            else if bool_decide (c ∈ PUNCTUATION) then
              (advance;; mret (mkToken (str_of_char c) (str_of_char c))) l
            else
              (advance;; get_next_token_loop fuel') l
        end
    end.

Definition get_next_token : M t Token :=
  fun l => get_next_token_loop (budget l) l.

(** *** Vocabulary for stating properties of the lexer *)

(** The lexer over [src] standing at index [n]. *)
Definition at_ (src : string) (n : nat) : t := mk src n (String.get n src).

(** [current_char] is the character at [pos], or [None] past the end: the
    relation [__init__] sets up and [advance] maintains. *)
Definition wf (l : t) : Prop := current_char l = String.get (pos l) (source l).

(** The text not yet consumed. *)
Definition rest (l : t) : string := sdrop (pos l) (source l).

Definition is_ident_start (c : ascii) : bool := isalpha c || char_eqb c "_".

(** The four forms of token [get_next_token] builds. *)
Inductive token_shape : Token -> Prop :=
| shape_eof : token_shape EOF
| shape_word c s :
    is_ident_start c = true ->
    token_shape
      (mkToken (if bool_decide (String c s ∈ KEYWORDS)
                then upper (String c s) else "IDENT")
               (String c s))
| shape_string s :
    token_shape (mkToken "STRING" (String dquote s))
| shape_punct c :
    c ∈ PUNCTUATION ->
    token_shape (mkToken (str_of_char c) (str_of_char c)).

End Lexer.

(** ** Parser *)

Module Parser.

Record t : Type := mk {
  tokens : list Token;
  pos : nat;
  current_token : Token
}.

Definition EOF : Token := mkToken "EOF" EmptyString.

(** [tokens[i]] for an index the caller has checked to be in range. *)
Definition token_at (toks : list Token) (i : nat) : Token :=
  match toks !! i with
  | Some tok => tok
  | None => EOF
  end.

Definition init (toks : list Token) : t :=
  mk toks 0 (match toks with [] => EOF | _ :: _ => token_at toks 0 end).

Definition advance : M t unit :=
  fun p =>
    let pos' := pos p + 1 in
    Ret tt (mk (tokens p) pos'
              (if pos' <? length (tokens p)
               then token_at (tokens p) pos'
               else EOF)).

Definition expect (expected_type : string) : M t Token :=
  fun p =>
    let cur := current_token p in
    if String.eqb (type cur) expected_type
       || String.eqb (value cur) expected_type
    then (advance;; mret cur) p
    else Raise (SyntaxError
                  ("Expected " +:+ expected_type +:+ ", got " +:+ repr cur)) p.

Definition peek (p : t) : Token :=
  if pos p + 1 <? length (tokens p)
  then token_at (tokens p) (pos p + 1)
  else EOF.

(** Iterations granted to a loop entered at [p]: every iteration of every
    loop of the parser that does not raise advances by a token. *)
Definition budget (p : t) : nat := S (length (tokens p) - pos p).

Definition loop {A} (cond : t -> bool) (body : A -> M t A) (acc : A)
    : M t A :=
  fun p => while_ (budget p) cond body acc p.

Definition value_is (v : string) (p : t) : bool :=
  String.eqb (value (current_token p)) v.

Definition value_is_not (v : string) (p : t) : bool :=
  negb (String.eqb (value (current_token p)) v).

Definition parse_expression : M t Expression :=
  fun p =>
    if String.eqb (type (current_token p)) "STRING"
    then (tok ← expect "STRING"; mret (StringLiteral (value tok))) p
    else Raise (NotImplementedError
                  "Complex expressions not implemented yet") p.

Definition parse_return : M t Statement :=
  expect "return";;
  expr ← parse_expression;
  expect ";";;
  mret (Return expr).

(** [if self.current_token.value == ',': self.expect(',')] *)
Definition skip_comma : M t unit :=
  fun p =>
    if value_is "," p then (expect ",";; mret tt) p else Ret tt p.

(** One iteration of the argument loop of [parse_call]. *)
Definition call_args_step (args : list Expression)
    : M t (list Expression) :=
  arg ← parse_expression;
  let args := args ++ [arg] in
  skip_comma;;
  mret args.

Definition parse_call : M t Statement :=
  tok ← expect "IDENT";
  expect "(";;
  args ← loop (value_is_not ")") call_args_step [];
  expect ")";;
  expect ";";;
  mret (Call (value tok) args).

Definition parse_statement : M t Statement :=
  fun p =>
    if value_is "return" p then parse_return p
    else if String.eqb (type (current_token p)) "IDENT"
            && String.eqb (value (peek p)) "("
    then parse_call p
    else Raise (SyntaxError ("Unexpected token: " +:+ repr (current_token p))) p.

(** One iteration of the parameter loop of [parse_function]. *)
Definition function_params_step (params : list (string * string))
    : M t (list (string * string)) :=
  param_name ← expect "IDENT";
  expect ":";;
  param_type ← expect "IDENT";
  let params := params ++ [(value param_name, value param_type)] in
  skip_comma;;
  mret params.

(** [returns = 'void'], replaced when the current token is the arrow. *)
Definition parse_returns : M t string :=
  fun p =>
    if value_is "->" p
    then (expect "->";; tok ← expect "IDENT"; mret (value tok)) p
    else Ret "void" p.

(** One iteration of the statement loop of [parse_function]. *)
Definition function_body_step (body : list Statement)
    : M t (list Statement) :=
  stmt ← parse_statement;
  mret (body ++ [stmt]).

Definition parse_function : M t Function_ :=
  expect "func";;
  name ← expect "IDENT";
  expect "(";;
  params ← loop (value_is_not ")") function_params_step [];
  expect ")";;
  returns ← parse_returns;
  expect "{";;
  body ← loop (value_is_not "}") function_body_step [];
  expect "}";;
  mret (mkFunction (value name) params returns body).

(** One iteration of the path loop of [parse_import]. *)
Definition import_path_step (path : list string) : M t (list string) :=
  expect ".";;
  tok ← expect "IDENT";
  mret (path ++ [value tok]).

Definition parse_import : M t string :=
  expect "import";;
  first ← expect "IDENT";
  path ← loop (value_is ".") import_path_step [value first];
  expect ";";;
  mret (join "." path).

(** One iteration of each of the two loops of [parse_module]. *)
Definition module_imports_step (imports : list string)
    : M t (list string) :=
  imp ← parse_import;
  mret (imports ++ [imp]).

Definition module_functions_step (functions : list Function_)
    : M t (list Function_) :=
  f ← parse_function;
  mret (functions ++ [f]).

Definition parse_module : M t Module_ :=
  expect "module";;
  name ← expect "IDENT";
  expect ";";;
  imports ← loop (value_is "import") module_imports_step [];
  functions ← loop (value_is "func") module_functions_step [];
  mret (mkModule (value name) imports functions).

Definition parse : M t Module_ := parse_module.

(** *** Vocabulary for stating properties of the parser *)

(** [current_token] is the token at [pos], or the synthesized [EOF] past
    the end: the relation [__init__] sets up and [advance] maintains. *)
Definition wf (p : t) : Prop :=
  current_token p
  = if pos p <? length (tokens p) then token_at (tokens p) (pos p) else EOF.

(** Number of tokens not yet consumed. *)
Definition remaining (p : t) : nat := length (tokens p) - pos p.

(** A well-formed parser all of whose tokens satisfy [ok]. *)
Definition pre (ok : Token -> Prop) (p : t) : Prop :=
  wf p /\ Forall ok (tokens p).

(** [p'] is [p] moved forward by some tokens ([strict]: by at least
    one). *)
Definition moved (strict : bool) (p p' : t) : Prop :=
  tokens p' = tokens p
  /\ (if strict then pos p < pos p' else pos p <= pos p')
  /\ (if strict then remaining p' < remaining p
      else remaining p' <= remaining p).

(** From a state satisfying [pre ok], the method [m] either raises, or
    returns a value satisfying [R] in a state that again satisfies
    [pre ok] and has not moved backwards ([strict]: has consumed a
    token).  It never exhausts a loop budget. *)
Definition spec (ok : Token -> Prop) {A} (strict : bool) (R : A -> Prop)
    (m : M t A) : Prop :=
  forall p,
    pre ok p ->
    match m p with
    | Ret a p' => pre ok p' /\ moved strict p p' /\ R a
    | Raise _ _ => True
    | OutOfFuel => False
    end.

(** A loop body consumes a token whenever it returns. *)
Definition consumes {A} (body : A -> M t A) : Prop :=
  forall acc p,
    wf p ->
    match body acc p with
    | Ret _ p' => moved true p p'
    | Raise _ _ => True
    | OutOfFuel => False
    end.

(** The arguments [expect] is called with. *)
Definition expectations : list string :=
  ["module"; "IDENT"; ";"; "import"; "."; "func"; "("; ":"; ","; ")"; "->";
   "{"; "}"; "return"; "STRING"].

(** The postcondition that says nothing about the result. *)
Definition any {A} : A -> Prop := fun _ => True.

(** Either the function got the default return type, or one of the tokens
    satisfying [ok] has the arrow as its value. *)
Definition returns_void_or_arrow (ok : Token -> Prop) (r : string) : Prop :=
  r = "void" \/ exists tok, ok tok /\ value tok = "->".

End Parser.

(** ** Code generator *)

Module CodeGenerator.

Record t : Type := mk {
  output : list string;
  indent : Z
}.

Definition init : t := mk [] 0.

Definition emit (line : string) : M t unit :=
  fun g =>
    Ret tt (mk (output g ++ [str_mul "    " (indent g) +:+ line]) (indent g)).

Definition add_indent (d : Z) : M t unit :=
  fun g => Ret tt (mk (output g) (indent g + d)%Z).

Definition get_code (g : t) : string :=
  join (str_of_char newline) (output g).

Definition type_map : gmap string string :=
  {[ "int" := "int"; "void" := "void"; "word" := "size_t"; "ptr" := "void*" ]}.

(** [type_map.get(key, fallback)] *)
Definition type_map_get (key fallback : string) : string :=
  default fallback (type_map !! key).

Definition generate_return (value : Expression) : M t unit :=
  match value with
  | StringLiteral v => emit ("return " +:+ v +:+ ";")
  end.

Definition generate_call (func : string) (args : list Expression)
    : M t unit :=
  if String.eqb func "print" then
    match args !! 0 with
    | Some arg => emit ("printf(" +:+ expr_value arg +:+ ");")
    | None => raise (IndexError "list index out of range")
    end
  else
    emit (func +:+ "(" +:+ join ", " (map expr_value args) +:+ ");").

Definition generate_statement (stmt : Statement) : M t unit :=
  match stmt with
  | Call func args => generate_call func args
  | Return value => generate_return value
  end.

Definition generate_function (func : Function_) : M t unit :=
  let return_type := type_map_get (returns func) "int" in
  let params :=
    map (fun '(name, typ) => type_map_get typ "int" +:+ " " +:+ name)
        (params func) in
  emit (return_type +:+ " " +:+ fname func +:+ "(" +:+ join ", " params
        +:+ ") {");;
  add_indent 1;;
  for_ (body func) generate_statement;;
  add_indent (-1);;
  emit "}";;
  emit EmptyString.

Definition generate (module : Module_) : M t unit :=
  emit "#include <stdio.h>";;
  emit "#include <stdlib.h>";;
  emit EmptyString;;
  for_ (imports module)
    (fun imp =>
       if String.eqb imp "std.io"
       then emit "void std_io_print(const char* msg);"
       else mret tt);;
  emit EmptyString;;
  for_ (functions module) generate_function.

(** *** Vocabulary for stating properties of the generator *)

(** A generator as [__init__] leaves it. *)
Definition fresh (g : t) : Prop := output g = [] /\ indent g = 0%Z.

(** [g'] is [g] with lines added to its buffer. *)
Definition extends (g g' : t) : Prop :=
  exists lines, output g' = output g ++ lines.

(** The type table as the specification words it: four fixed entries, and
    [int] for every other name. *)
Definition spec_type (name : string) : string :=
  if String.eqb name "int" then "int"
  else if String.eqb name "void" then "void"
  else if String.eqb name "word" then "size_t"
  else if String.eqb name "ptr" then "void*"
  else "int".

(** The signature line of a function under that table. *)
Definition spec_signature (func : Function_) : string :=
  spec_type (returns func) +:+ " " +:+ fname func +:+ "("
  +:+ join ", " (map (fun nt => spec_type nt.2 +:+ " " +:+ nt.1) (params func))
  +:+ ") {".

(** The statement [print();]. *)
Definition empty_print : Statement := Call "print" [].

Definition index_error : exn := IndexError "list index out of range".

End CodeGenerator.

(** ** Driver: the pipeline of [RereCompiler.compile_to_c] *)

Module RereCompiler.

(** The [while True] loop that drains the lexer; it stops at the first
    [EOF] token, which is not kept. *)
Fixpoint tokenize_loop (fuel : nat) (tokens : list Token)
    : M Lexer.t (list Token) :=
  match fuel with
  | O => fun _ => OutOfFuel
  | S fuel' =>
      token ← Lexer.get_next_token;
      if String.eqb (type token) "EOF" then mret tokens
      else tokenize_loop fuel' (tokens ++ [token])
  end.

(** Every token but the last [EOF] takes at least one character. *)
Definition tokenize (source : string) : outcome Lexer.t (list Token) :=
  tokenize_loop (S (String.length source)) [] (Lexer.init source).

(** The first half of [compile_to_c]: a fresh lexer is drained, and a
    fresh parser runs on its tokens. *)
Definition parse_source (source : string) : outcome unit Module_ :=
  match tokenize source with
  | Ret tokens _ => detach (Parser.parse (Parser.init tokens))
  | Raise e _ => Raise e tt
  | OutOfFuel => OutOfFuel
  end.

(** What [compile_to_c] computes between reading the source file and
    writing the C file. *)
Definition compile_to_c (source : string) : outcome unit string :=
  match parse_source source with
  | Ret ast _ =>
      match CodeGenerator.generate ast CodeGenerator.init with
      | Ret _ gen => Ret (CodeGenerator.get_code gen) tt
      | Raise e _ => Raise e tt
      | OutOfFuel => OutOfFuel
      end
  | Raise e _ => Raise e tt
  | OutOfFuel => OutOfFuel
  end.

End RereCompiler.

(** ** Source texts used as examples *)

Module Examples.

Definition q : string := str_of_char dquote.

Definition trailing_comma : string := "module m; func f(a: int,) { }".

Definition unsupported_expression : string :=
  "module m; func f() { return 1 + 2; }".

Definition empty_print : string := "module m; func f() { print(); }".

(** A call of [print] with the two string arguments [hi] and [x]. *)
Definition print_two : string :=
  "module m; func f() { print(" +:+ q +:+ "hi" +:+ q +:+ ", " +:+ q +:+ "x"
  +:+ q +:+ "); }".

(** [print(] followed by a double quote and [abc], with no closing
    quote. *)
Definition unterminated : string := "print(" +:+ q +:+ "abc".

(** [func f(x: mystery) { }] inside a module. *)
Definition mystery : string := "module m; func f(x: mystery) { }".

End Examples.


(** ** The lexer as a relation on the unconsumed text *)

Module Scan.

Definition not_newline (c : ascii) : bool := negb (char_eqb c newline).

Definition not_dquote (c : ascii) : bool := negb (char_eqb c dquote).

(** The text begins with the two slashes of a line comment. *)
Definition starts_comment (r : string) : bool :=
  match r with
  | String c (String d _) => char_eqb c "/" && char_eqb d "/"
  | _ => false
  end.

(** The branch of [get_next_token] a character selects, the comment test
    apart. *)
Inductive class : Type := Space | Word | Quote | Punct | Other.

Definition classify (c : ascii) : class :=
  if isspace c then Space
  else if Lexer.is_ident_start c then Word
  else if char_eqb c dquote then Quote
  else if bool_decide (c ∈ Lexer.PUNCTUATION) then Punct
  else Other.

Definition word_token (w : string) : Token :=
  mkToken (if bool_decide (w ∈ Lexer.KEYWORDS) then upper w else "IDENT") w.

Definition string_token (body : string) : Token :=
  mkToken "STRING" (str_of_char dquote +:+ body +:+ str_of_char dquote).

Definition punct_token (c : ascii) : Token :=
  mkToken (str_of_char c) (str_of_char c).

(** [scans r tok r']: on the unconsumed text [r], one call of
    [get_next_token] returns [tok] and leaves [r'] unconsumed. *)
Inductive scans : string -> Token -> string -> Prop :=
| scans_eof :
    scans EmptyString Lexer.EOF EmptyString
| scans_space c r tok r' :
    classify c = Space ->
    scans (drop_while isspace (String c r)) tok r' ->
    scans (String c r) tok r'
| scans_comment r tok r' :
    starts_comment r = true ->
    scans (drop_while not_newline r) tok r' ->
    scans r tok r'
| scans_word c r :
    classify c = Word ->
    scans (String c r)
      (word_token (take_while Lexer.is_ident_char (String c r)))
      (drop_while Lexer.is_ident_char (String c r))
| scans_string c r :
    classify c = Quote ->
    scans (String c r)
      (string_token (take_while not_dquote r))
      (stail (drop_while not_dquote r))
| scans_punct c r :
    classify c = Punct ->
    scans (String c r) (punct_token c) r
| scans_other c r tok r' :
    classify c = Other ->
    starts_comment (String c r) = false ->
    scans r tok r' ->
    scans (String c r) tok r'.

(** [tokens_of r toks]: draining the lexer on the unconsumed text [r], as
    the driver does, collects [toks]. *)
Inductive tokens_of : string -> list Token -> Prop :=
| tokens_done r tok r' :
    scans r tok r' -> type tok = "EOF" -> tokens_of r []
| tokens_more r tok r' toks :
    scans r tok r' -> type tok <> "EOF" -> tokens_of r' toks ->
    tokens_of r (tok :: toks).

(** The text after a comment: it begins with a line feed or is empty. *)
Definition ends_line (tl : string) : Prop :=
  match shead tl with
  | Some c => c = newline
  | None => True
  end.

(** The text after a word: it does not begin with a word character. *)
Definition ends_word (tl : string) : Prop :=
  match shead tl with
  | Some c => Lexer.is_ident_char c = false
  | None => True
  end.

(** A word: a letter or underscore followed by letters, digits and
    underscores. *)
Definition is_word (w : string) : bool :=
  match w with
  | String c s => Lexer.is_ident_start c && sforallb Lexer.is_ident_char s
  | EmptyString => false
  end.

(** The tokens the driver can collect: a reserved word with its upper-cased
    type, any other word with type [IDENT], a quoted text without a double
    quote inside, or a punctuation character. *)
Inductive token_ok : Token -> Prop :=
| ok_keyword w :
    w ∈ Lexer.KEYWORDS -> token_ok (mkToken (upper w) w)
| ok_ident w :
    is_word w = true -> w ∉ Lexer.KEYWORDS -> token_ok (mkToken "IDENT" w)
| ok_string body :
    sforallb not_dquote body = true -> token_ok (string_token body)
| ok_punct c :
    c ∈ Lexer.PUNCTUATION -> token_ok (punct_token c).

End Scan.

(** ** What a method can raise *)

(** Every exception [m] raises, with the instance as the raise left it,
    satisfies [E]. *)
Definition raises_only {St A} (E : exn -> St -> Prop) (m : M St A) : Prop :=
  forall s e s', m s = Raise e s' -> E e s'.

Module ParseError.

(** The three ways the parser fails; each message names the current token
    of the parser at the point of failure.
    - an [expect] of one of the parser's literals did not match;
    - a statement starts with a token that begins neither a return nor a
      call;
    - an expression starts with a token that is not a string. *)
Inductive raised : exn -> Parser.t -> Prop :=
| raised_expected expected p :
    expected ∈ Parser.expectations ->
    type (Parser.current_token p) <> expected ->
    value (Parser.current_token p) <> expected ->
    raised (SyntaxError ("Expected " +:+ expected +:+ ", got "
                         +:+ repr (Parser.current_token p))) p
| raised_unexpected p :
    value (Parser.current_token p) <> "return" ->
    raised (SyntaxError ("Unexpected token: "
                         +:+ repr (Parser.current_token p))) p
| raised_unsupported p :
    type (Parser.current_token p) <> "STRING" ->
    raised (NotImplementedError "Complex expressions not implemented yet") p.


End ParseError.

(** ** The token sequences of the grammar *)

Module Grammar.

Definition ident (name : string) : Token := mkToken "IDENT" name.

Definition sym (s : string) : Token := mkToken s s.

Definition keyword (w : string) : Token := mkToken (upper w) w.

Definition literal (e : Expression) : Token :=
  mkToken "STRING" (expr_value e).

(** A separator that may be left out. *)
Definition comma (present : bool) : list Token :=
  if present then [sym ","] else [].

(** A value that no loop test of the parser takes for a delimiter or for
    the start of a return statement. *)
Definition plain (v : string) : Prop :=
  v <> ")" /\ v <> "," /\ v <> "}" /\ v <> "return".

(** Arguments, each with the choice of a comma after it. *)
Fixpoint args_tokens (args : list (Expression * bool)) : list Token :=
  match args with
  | [] => []
  | (e, c) :: args' => literal e :: comma c ++ args_tokens args'
  end.

Inductive statement : Type :=
| SCall (func : string) (args : list (Expression * bool))
| SReturn (value : Expression).

Definition statement_tokens (s : statement) : list Token :=
  match s with
  | SCall f args =>
      ident f :: sym "(" :: args_tokens args ++ [sym ")"; sym ";"]
  | SReturn e => [keyword "return"; literal e; sym ";"]
  end.

Definition statement_ast (s : statement) : Statement :=
  match s with
  | SCall f args => Call f (map fst args)
  | SReturn e => Return e
  end.

Definition statement_plain (s : statement) : Prop :=
  match s with
  | SCall f args =>
      plain f /\ Forall (fun a => plain (expr_value a.1)) args
  | SReturn _ => True
  end.

(** Parameters [(name, type)], each with the choice of a comma after it. *)
Fixpoint params_tokens (ps : list (string * string * bool)) : list Token :=
  match ps with
  | [] => []
  | (n, t, c) :: ps' =>
      ident n :: sym ":" :: ident t :: comma c ++ params_tokens ps'
  end.

Record function : Type := mkfunction {
  f_name : string;
  f_params : list (string * string * bool);
  f_returns : option string;
  f_body : list statement
}.

Definition returns_tokens (r : option string) : list Token :=
  match r with
  | Some t => [sym "->"; ident t]
  | None => []
  end.

Definition body_tokens (stmts : list statement) : list Token :=
  concat (map statement_tokens stmts).

Definition function_tokens (f : function) : list Token :=
  keyword "func" :: ident (f_name f) :: sym "("
  :: params_tokens (f_params f)
  ++ sym ")" :: returns_tokens (f_returns f)
  ++ sym "{" :: body_tokens (f_body f) ++ [sym "}"].

Definition function_ast (f : function) : Function_ :=
  mkFunction (f_name f) (map fst (f_params f))
    (default "void" (f_returns f)) (map statement_ast (f_body f)).

Definition function_plain (f : function) : Prop :=
  Forall (fun p => plain p.1.1) (f_params f)
  /\ Forall statement_plain (f_body f).

(** An import: its first name and the names that follow, each after a
    dot. *)
Definition path_tokens (more : list string) : list Token :=
  concat (map (fun n => [sym "."; ident n]) more).

Definition import_tokens (i : string * list string) : list Token :=
  keyword "import" :: ident i.1 :: path_tokens i.2 ++ [sym ";"].

Definition import_ast (i : string * list string) : string :=
  join "." (i.1 :: i.2).

Record module : Type := mkmodule {
  m_name : string;
  m_imports : list (string * list string);
  m_functions : list function
}.

Definition module_tokens (m : module) : list Token :=
  keyword "module" :: ident (m_name m) :: sym ";"
  :: concat (map import_tokens (m_imports m))
  ++ concat (map function_tokens (m_functions m)).

Definition module_ast (m : module) : Module_ :=
  mkModule (m_name m) (map import_ast (m_imports m))
    (map function_ast (m_functions m)).

(** The value of the first token of [post], or of [EOF]. *)
Definition next_value (post : list Token) : string :=
  value (match post with tok :: _ => tok | [] => Parser.EOF end).

(** Tokens after a module that the parser leaves unread: they begin
    neither an import nor a function. *)
Definition trailing (rest : list Token) : Prop :=
  next_value rest <> "import" /\ next_value rest <> "func".

(** The parser on [pre ++ post] that has consumed [pre]. *)
Definition zip (pre post : list Token) : Parser.t :=
  Parser.mk (pre ++ post) (length pre)
    (match post with tok :: _ => tok | [] => Parser.EOF end).

End Grammar.

(** ** The lines the generator writes *)

Global Instance Expression_eq_dec : EqDecision Expression.
Proof. solve_decision. Defined.

Global Instance Statement_eq_dec : EqDecision Statement.
Proof. solve_decision. Defined.

Module Layout.

(** A line at indentation depth [depth]. *)
Definition pad (depth : Z) (line : string) : string :=
  str_mul "    " depth +:+ line.

(** The text a statement is lowered to; a [print] call without arguments
    has none. *)
Definition statement_text (stmt : Statement) : option string :=
  match stmt with
  | Call func args =>
      if String.eqb func "print" then
        match args with
        | arg :: _ => Some ("printf(" +:+ expr_value arg +:+ ");")
        | [] => None
        end
      else Some (func +:+ "(" +:+ join ", " (map expr_value args) +:+ ");")
  | Return value => Some ("return " +:+ expr_value value +:+ ";")
  end.

(** The texts of the statements up to the first one that has none. *)
Fixpoint body_texts (stmts : list Statement) : list string :=
  match stmts with
  | [] => []
  | stmt :: stmts' =>
      match statement_text stmt with
      | Some text => text :: body_texts stmts'
      | None => []
      end
  end.

Definition signature (func : Function_) : string :=
  CodeGenerator.type_map_get (returns func) "int" +:+ " " +:+ fname func +:+ "("
  +:+ join ", "
        (map (fun '(name, typ) =>
                CodeGenerator.type_map_get typ "int" +:+ " " +:+ name)
             (params func))
  +:+ ") {".

(** A function whose body lowers completely: signature, one line per
    statement one level deeper, closing brace, blank line. *)
Definition function_lines (depth : Z) (func : Function_) : list string :=
  pad depth (signature func)
  :: map (pad (depth + 1)) (body_texts (body func))
  ++ [pad depth "}"; pad depth EmptyString].

Definition declaration : string := "void std_io_print(const char* msg);".

Definition header_lines (depth : Z) (imps : list string) : list string :=
  [pad depth "#include <stdio.h>"; pad depth "#include <stdlib.h>";
   pad depth EmptyString]
  ++ map (fun _ => pad depth declaration)
       (filter (fun imp => imp = "std.io") imps)
  ++ [pad depth EmptyString].

Definition module_lines (depth : Z) (module : Module_) : list string :=
  header_lines depth (imports module)
  ++ concat (map (function_lines depth) (functions module)).

(** No [print] call without arguments in any body. *)
Definition lowers (module : Module_) : Prop :=
  Forall (fun f => CodeGenerator.empty_print ∉ body f) (functions module).

(** The lines written for the functions up to and including the first one
    whose body holds a [print] call without arguments: that function
    contributes its signature and the statements before the call. *)
Fixpoint partial_lines (depth : Z) (funcs : list Function_) : list string :=
  match funcs with
  | [] => []
  | f :: funcs' =>
      if bool_decide (CodeGenerator.empty_print ∈ body f)
      then pad depth (signature f)
           :: map (pad (depth + 1)) (body_texts (body f))
      else function_lines depth f ++ partial_lines depth funcs'
  end.

End Layout.

(** ** The name of the C file *)

Module Paths.

(** [s.replace(old, new)] for a non-empty [old]: the occurrences of [old]
    are found from left to right and do not overlap.  [skip] counts the
    characters of the occurrence just replaced that are still to be passed
    over. *)
Fixpoint replace_from (old new : string) (skip : nat) (s : string) : string :=
  match s with
  | EmptyString => EmptyString
  | String c s' =>
      match skip with
      | S k => replace_from old new k s'
      | O =>
          if String.prefix old s
          then new +:+ replace_from old new (String.length old - 1) s'
          else String c (replace_from old new 0 s')
      end
  end.

Definition replace (old new s : string) : string := replace_from old new 0 s.

(** [c_file = source_file.replace('.rere', '.c')] in
    [compile_to_executable]; [compile_to_c] then writes the C text to that
    path. *)
Definition c_file (source_file : string) : string :=
  replace ".rere" ".c" source_file.

(** [old] occurs somewhere in [s]: [old in s]. *)
Fixpoint occurs (old s : string) : bool :=
  String.prefix old s
  || match s with
     | String _ s' => occurs old s'
     | EmptyString => false
     end.

(** An occurrence of [old] in [a ++ b] starts inside [a]. *)
Fixpoint starts_in (old a b : string) : bool :=
  match a with
  | EmptyString => false
  | String _ a' => String.prefix old (a +:+ b) || starts_in old a' b
  end.

End Paths.

(** * Properties *)

(** ** Strings *)

Lemma get_shead_sdrop (s : string) : forall n, String.get n s = shead (sdrop n s).
Proof.
  induction s as [|c s IH]; intros [|n]; simpl; auto.
Qed.

Lemma sdrop_S (n : nat) : forall s, sdrop (S n) s = stail (sdrop n s).
Proof.
  induction n as [|n IH]; intros [|c s]; simpl; auto.
  rewrite <- IH. reflexivity.
Qed.

Lemma length_sdrop (s : string) : forall n, String.length (sdrop n s) = String.length s - n.
Proof.
  induction s as [|c s IH]; intros [|n]; simpl; auto.
Qed.

Lemma sdrop_add (n : nat) : forall k s, sdrop (n + k) s = sdrop k (sdrop n s).
Proof.
  induction n as [|n IH]; intros k [|c s]; simpl; auto.
  destruct k; reflexivity.
Qed.

Lemma sdrop_take_while (p : ascii -> bool) (s : string) :
  sdrop (String.length (take_while p s)) s = drop_while p s.
Proof.
  induction s as [|c s IH]; simpl; auto.
  destruct (p c); simpl; auto.
Qed.

Lemma append_cons (c : ascii) (s u : string) :
  String c s +:+ u = String c (s +:+ u).
Proof. reflexivity. Qed.

Lemma append_nil_l (s : string) : EmptyString +:+ s = s.
Proof. reflexivity. Qed.

Lemma append_nil_r (s : string) : s +:+ EmptyString = s.
Proof. induction s; rewrite ?append_cons, ?append_nil_l; congruence. Qed.

Lemma append_assoc (a b c : string) : (a +:+ b) +:+ c = a +:+ (b +:+ c).
Proof. induction a; rewrite ?append_cons, ?append_nil_l; congruence. Qed.

Lemma take_while_all (p : ascii -> bool) (s : string) :
  sforallb p s = true -> take_while p s = s /\ drop_while p s = EmptyString.
Proof.
  induction s as [|c s IH]; simpl; auto.
  destruct (p c); simpl; [|discriminate].
  intros H. destruct (IH H) as [-> ->]. auto.
Qed.

Lemma take_while_app (p : ascii -> bool) (k tl : string) :
  sforallb p k = true ->
  match shead tl with Some c => p c = false | None => True end ->
  take_while p (k +:+ tl) = k /\ drop_while p (k +:+ tl) = tl.
Proof.
  induction k as [|c k IH]; rewrite ?append_cons, ?append_nil_l; simpl.
  - intros _ H. destruct tl as [|d tl]; simpl in *; auto. rewrite H. auto.
  - destruct (p c); simpl; [|discriminate].
    intros Hk Htl. destruct (IH Hk Htl) as [-> ->]. auto.
Qed.

Lemma sdrop_ge (s : string) (n : nat) :
  String.length s <= n -> sdrop n s = EmptyString.
Proof.
  intros H. pose proof (length_sdrop s n) as L.
  destruct (sdrop n s); [reflexivity | simpl in L; lia].
Qed.

Lemma sdrop_cons_lt (s : string) (n : nat) (c : ascii) (r : string) :
  sdrop n s = String c r -> n < String.length s /\ sdrop (n + 1) s = r.
Proof.
  intros E. pose proof (length_sdrop s n) as L. rewrite E in L. simpl in L.
  split; [lia|]. rewrite Nat.add_1_r, sdrop_S, E. reflexivity.
Qed.

(** ** The monad and its loops *)

Lemma bind_Ret {St A B} (m : M St A) (k : A -> M St B) (s s' : St) (a : A) :
  m s = Ret a s' -> (m ≫= k) s = k a s'.
Proof. intros H. unfold mbind, M_bind. rewrite H. reflexivity. Qed.

Lemma bind_Raise {St A B} (m : M St A) (k : A -> M St B) (s s' : St) (e : exn) :
  m s = Raise e s' -> (m ≫= k) s = Raise e s'.
Proof. intros H. unfold mbind, M_bind. rewrite H. reflexivity. Qed.

(** ** Lexer: the instance as a position in the source *)

Lemma Lexer_wf_at (l : Lexer.t) :
  Lexer.wf l -> l = Lexer.at_ (Lexer.source l) (Lexer.pos l).
Proof.
  destruct l as [src n c]. unfold Lexer.wf, Lexer.at_. simpl.
  intros ->. reflexivity.
Qed.

Lemma Lexer_at_wf (src : string) (n : nat) : Lexer.wf (Lexer.at_ src n).
Proof. reflexivity. Qed.

Lemma Lexer_init_at (src : string) : Lexer.init src = Lexer.at_ src 0.
Proof.
  unfold Lexer.init, Lexer.at_. case_bool_decide as E; [|reflexivity].
  rewrite E. reflexivity.
Qed.

Lemma Lexer_current_at (src : string) (n : nat) :
  Lexer.current_char (Lexer.at_ src n) = shead (sdrop n src).
Proof. apply get_shead_sdrop. Qed.

Lemma Lexer_advance_at (src : string) (n : nat) :
  Lexer.advance (Lexer.at_ src n) = Ret tt (Lexer.at_ src (n + 1)).
Proof.
  unfold Lexer.advance, Lexer.at_. simpl.
  destruct (Nat.ltb_spec (n + 1) (String.length src)) as [H|H]; [reflexivity|].
  rewrite get_shead_sdrop, sdrop_ge by lia. reflexivity.
Qed.

(** A scanning loop that collects characters stops after the longest run of
    characters satisfying the loop condition. *)
Lemma Lexer_scan_collect (p : ascii -> bool) (fuel : nat) :
  forall (src : string) (n : nat) (acc : string),
    String.length src - n < fuel ->
    while_ fuel (Lexer.current_is p)
      (fun result =>
         result' ← Lexer.append_current result; Lexer.advance;; mret result')
      acc (Lexer.at_ src n)
    = Ret (acc +:+ take_while p (sdrop n src))
          (Lexer.at_ src (n + String.length (take_while p (sdrop n src)))).
Proof.
  induction fuel as [|fuel IH]; intros src n acc Hf; [lia|].
  cbn [while_]. unfold Lexer.current_is. rewrite Lexer_current_at.
  destruct (sdrop n src) as [|c r] eqn:E; simpl.
  { rewrite append_nil_r, Nat.add_0_r. reflexivity. }
  destruct (p c) eqn:Hp; simpl.
  - destruct (sdrop_cons_lt _ _ _ _ E) as [Hn Er].
    erewrite bind_Ret; cycle 1.
    { unfold Lexer.append_current. rewrite Lexer_current_at, E. reflexivity. }
    erewrite bind_Ret by apply Lexer_advance_at.
    unfold mret, M_ret. rewrite IH by lia. rewrite Er.
    rewrite append_assoc. simpl. f_equal. f_equal. lia.
  - rewrite append_nil_r, Nat.add_0_r. reflexivity.
Qed.

(** The same for a loop that only skips. *)
Lemma Lexer_scan_skip (p : ascii -> bool) (fuel : nat) :
  forall (src : string) (n : nat),
    String.length src - n < fuel ->
    while_ fuel (Lexer.current_is p) (fun _ => Lexer.advance) tt
      (Lexer.at_ src n)
    = Ret tt (Lexer.at_ src (n + String.length (take_while p (sdrop n src)))).
Proof.
  induction fuel as [|fuel IH]; intros src n Hf; [lia|].
  cbn [while_]. unfold Lexer.current_is. rewrite Lexer_current_at.
  destruct (sdrop n src) as [|c r] eqn:E; simpl.
  { rewrite Nat.add_0_r. reflexivity. }
  destruct (p c) eqn:Hp; simpl.
  - destruct (sdrop_cons_lt _ _ _ _ E) as [Hn Er].
    rewrite Lexer_advance_at, IH by lia. rewrite Er.
    f_equal. f_equal. lia.
  - rewrite Nat.add_0_r. reflexivity.
Qed.

Lemma Lexer_budget_at (src : string) (n : nat) :
  String.length src - n < Lexer.budget (Lexer.at_ src n).
Proof. unfold Lexer.budget. simpl. lia. Qed.

Lemma Lexer_skip_whitespace_at (src : string) (n : nat) :
  Lexer.skip_whitespace (Lexer.at_ src n)
  = Ret tt (Lexer.at_ src
              (n + String.length (take_while isspace (sdrop n src)))).
Proof. apply Lexer_scan_skip, Lexer_budget_at. Qed.

Lemma Lexer_skip_comment_at (src : string) (n : nat) :
  Lexer.skip_comment (Lexer.at_ src n)
  = Ret tt (Lexer.at_ src
              (n + String.length
                     (take_while (fun c => negb (char_eqb c newline))
                                 (sdrop n src)))).
Proof. apply Lexer_scan_skip, Lexer_budget_at. Qed.

Lemma Lexer_get_identifier_at (src : string) (n : nat) :
  Lexer.get_identifier (Lexer.at_ src n)
  = Ret (take_while Lexer.is_ident_char (sdrop n src))
        (Lexer.at_ src
           (n + String.length (take_while Lexer.is_ident_char (sdrop n src)))).
Proof.
  unfold Lexer.get_identifier.
  rewrite Lexer_scan_collect by apply Lexer_budget_at. reflexivity.
Qed.

Lemma Lexer_get_string_at (src : string) (n : nat) :
  let body := take_while (fun c => negb (char_eqb c dquote)) (sdrop (n + 1) src) in
  Lexer.get_string (Lexer.at_ src n)
  = Ret (str_of_char dquote +:+ body +:+ str_of_char dquote)
        (Lexer.at_ src (n + 1 + String.length body + 1)).
Proof.
  intros body. unfold Lexer.get_string.
  erewrite bind_Ret by apply Lexer_advance_at.
  erewrite bind_Ret; cycle 1.
  { rewrite Lexer_scan_collect by apply Lexer_budget_at. reflexivity. }
  erewrite bind_Ret by apply Lexer_advance_at.
  reflexivity.
Qed.

Lemma take_while_cons (p : ascii -> bool) (c : ascii) (r : string) :
  p c = true -> take_while p (String c r) = String c (take_while p r).
Proof. intros H. simpl. rewrite H. reflexivity. Qed.

Lemma take_while_cons_length (p : ascii -> bool) (c : ascii) (r : string) :
  p c = true -> 0 < String.length (take_while p (String c r)).
Proof. intros H. simpl. rewrite H. simpl. lia. Qed.

Lemma ident_start_ident_char (c : ascii) :
  Lexer.is_ident_start c = true -> Lexer.is_ident_char c = true.
Proof.
  unfold Lexer.is_ident_start, Lexer.is_ident_char, isalnum.
  intros H. apply orb_true_iff in H as [H|H]; rewrite H; simpl; auto.
  rewrite orb_true_r. reflexivity.
Qed.

(** From any position [get_next_token] returns: it builds a token of one of
    the four shapes, and unless the token is [EOF] it has moved forward. *)
Lemma Lexer_get_next_token_loop_at (fuel : nat) :
  forall (src : string) (n : nat),
    String.length src - n < fuel ->
    exists tok n',
      Lexer.get_next_token_loop fuel (Lexer.at_ src n)
      = Ret tok (Lexer.at_ src n')
      /\ Lexer.token_shape tok
      /\ (tok = Lexer.EOF \/ (n < n' /\ n < String.length src)).
Proof.
  induction fuel as [|fuel IH]; intros src n Hf; [lia|].
  cbn [Lexer.get_next_token_loop]. rewrite Lexer_current_at.
  destruct (sdrop n src) as [|c r] eqn:E; simpl shead; cbv iota.
  { exists Lexer.EOF, n. split; [reflexivity|]. split; [constructor|auto]. }
  destruct (sdrop_cons_lt _ _ _ _ E) as [Hn Er].
  destruct (isspace c) eqn:Hsp.
  { erewrite bind_Ret by apply Lexer_skip_whitespace_at.
    rewrite E. pose proof (take_while_cons_length isspace c r Hsp) as Hl.
    destruct (IH src (n + String.length (take_while isspace (String c r))))
      as (tok & n' & Hrun & Hshape & Hprog); [lia|].
    exists tok, n'. split; [exact Hrun|]. split; [exact Hshape|].
    destruct Hprog; [auto | right; lia]. }
  destruct (Lexer.at_comment (Lexer.at_ src n)) eqn:Hc.
  { erewrite bind_Ret by apply Lexer_skip_comment_at.
    rewrite E.
    assert (Hnl : negb (char_eqb c newline) = true).
    { unfold Lexer.at_comment, Lexer.current_is in Hc.
      rewrite Lexer_current_at, E in Hc. simpl in Hc.
      apply andb_true_iff in Hc as [Hc _]. apply andb_true_iff in Hc as [Hc _].
      apply Ascii.eqb_eq in Hc. subst c. reflexivity. }
    pose proof (take_while_cons_length
                  (fun c => negb (char_eqb c newline)) c r Hnl) as Hl.
    destruct (IH src (n + String.length
                        (take_while (fun c => negb (char_eqb c newline))
                                    (String c r))))
      as (tok & n' & Hrun & Hshape & Hprog); [lia|].
    exists tok, n'. split; [exact Hrun|]. split; [exact Hshape|].
    destruct Hprog; [auto | right; lia]. }
  destruct (isalpha c || char_eqb c "_") eqn:Hid.
  { erewrite bind_Ret by apply Lexer_get_identifier_at.
    rewrite E, (take_while_cons _ c r (ident_start_ident_char c Hid)).
    set (w := take_while Lexer.is_ident_char r).
    exists (mkToken (if bool_decide (String c w ∈ Lexer.KEYWORDS)
                     then upper (String c w) else "IDENT") (String c w)),
           (n + String.length (String c w)).
    split; [case_bool_decide; reflexivity|].
    split; [constructor; exact Hid|]. right. simpl. lia. }
  destruct (char_eqb c dquote) eqn:Hq.
  { erewrite bind_Ret by apply Lexer_get_string_at.
    eexists _, _. split; [reflexivity|].
    split; [apply Lexer.shape_string|]. right. lia. }
  case_bool_decide as Hp.
  { erewrite bind_Ret by apply Lexer_advance_at.
    eexists _, _. split; [reflexivity|].
    split; [apply Lexer.shape_punct; exact Hp|]. right. lia. }
  erewrite bind_Ret by apply Lexer_advance_at.
  destruct (IH src (n + 1)) as (tok & n' & Hrun & Hshape & Hprog); [lia|].
  exists tok, n'. split; [exact Hrun|]. split; [exact Hshape|].
  destruct Hprog; [auto | right; lia].
Qed.

Lemma Lexer_get_next_token_at (src : string) (n : nat) :
  exists tok n',
    Lexer.get_next_token (Lexer.at_ src n) = Ret tok (Lexer.at_ src n')
    /\ Lexer.token_shape tok
    /\ (tok = Lexer.EOF \/ (n < n' /\ n < String.length src)).
Proof. apply Lexer_get_next_token_loop_at, Lexer_budget_at. Qed.

(** The driver's loop drains the lexer within its budget, and every token
    it keeps has one of the shapes of [Lexer.token_shape]. *)
Lemma tokenize_loop_at (fuel : nat) :
  forall (src : string) (n : nat) (acc : list Token),
    String.length src - n < fuel ->
    exists toks n',
      RereCompiler.tokenize_loop fuel acc (Lexer.at_ src n)
      = Ret (acc ++ toks) (Lexer.at_ src n')
      /\ Forall Lexer.token_shape toks.
Proof.
  induction fuel as [|fuel IH]; intros src n acc Hf; [lia|].
  cbn [RereCompiler.tokenize_loop].
  destruct (Lexer_get_next_token_at src n) as (tok & n1 & Hrun & Hshape & Hprog).
  erewrite bind_Ret by exact Hrun.
  destruct (String.eqb (type tok) "EOF") eqn:Heof.
  - exists [], n1. rewrite app_nil_r. split; [reflexivity | constructor].
  - destruct Hprog as [->|[Hlt Hlen]]; [discriminate|].
    destruct (IH src n1 (acc ++ [tok])) as (toks & n' & Hrun' & Hall); [lia|].
    exists (tok :: toks), n'. rewrite Hrun', <- app_assoc.
    split; [reflexivity | constructor; assumption].
Qed.

Lemma tokenize_total (src : string) :
  exists toks l,
    RereCompiler.tokenize src = Ret toks l /\ Forall Lexer.token_shape toks.
Proof.
  unfold RereCompiler.tokenize. rewrite Lexer_init_at.
  destruct (tokenize_loop_at (S (String.length src)) src 0 []) as (toks & n' & H & Hall);
    [lia|].
  exists toks, (Lexer.at_ src n'). split; [exact H | exact Hall].
Qed.

(** ** Lexer: what the tokens look like *)

Lemma KEYWORDS_elem (k : string) :
  k ∈ Lexer.KEYWORDS <->
  k = "module" \/ k = "import" \/ k = "func" \/ k = "return".
Proof.
  unfold Lexer.KEYWORDS. rewrite !elem_of_union, !elem_of_singleton. tauto.
Qed.

Lemma PUNCTUATION_elem (c : ascii) :
  c ∈ Lexer.PUNCTUATION <->
  (c = ";" \/ c = "{" \/ c = "}" \/ c = "(" \/ c = ")" \/ c = "," \/ c = "."
   \/ c = ":")%char.
Proof.
  unfold Lexer.PUNCTUATION. rewrite !elem_of_union, !elem_of_singleton. tauto.
Qed.

(** Characters that start a word are neither blank, nor a slash, nor a
    double quote. *)
Lemma ident_start_class (c : ascii) :
  Lexer.is_ident_start c = true ->
  isspace c = false /\ char_eqb c "/" = false /\ char_eqb c dquote = false.
Proof.
  destruct c as [[] [] [] [] [] [] [] []]; vm_compute; auto.
Qed.

Lemma token_shape_value (tok : Token) :
  Lexer.token_shape tok ->
  value tok <> "-" /\ value tok <> ">" /\ value tok <> "->".
Proof.
  intros [ | c s Hc | s | c Hc]; simpl.
  - repeat split; discriminate.
  - repeat split; intros [= -> _]; vm_compute in Hc; discriminate.
  - repeat split; discriminate.
  - apply PUNCTUATION_elem in Hc.
    repeat split; intros [= ->]; repeat destruct Hc as [Hc|Hc]; discriminate.
Qed.

Lemma token_shape_keyword (tok : Token) :
  Lexer.token_shape tok ->
  value tok ∈ Lexer.KEYWORDS ->
  type tok = upper (value tok) /\ type tok <> "IDENT".
Proof.
  intros [ | c s Hc | s | c Hc] Hk; cbn [type value] in *.
  - apply KEYWORDS_elem in Hk. repeat destruct Hk as [Hk|Hk]; discriminate.
  - rewrite bool_decide_eq_true_2 by exact Hk. split; [reflexivity|].
    apply KEYWORDS_elem in Hk.
    repeat destruct Hk as [Hk|Hk]; rewrite Hk; discriminate.
  - apply KEYWORDS_elem in Hk. repeat destruct Hk as [Hk|Hk]; discriminate.
  - apply KEYWORDS_elem in Hk. repeat destruct Hk as [Hk|Hk]; discriminate.
Qed.

(** At the start of a word the lexer takes the whole run of word characters
    and classifies it by membership in [KEYWORDS]. *)
Lemma Lexer_word_at (src : string) (n : nat) (c : ascii) (w tl : string) :
  sdrop n src = String c w +:+ tl ->
  Lexer.is_ident_start c = true ->
  sforallb Lexer.is_ident_char w = true ->
  match shead tl with
  | Some d => Lexer.is_ident_char d = false
  | None => True
  end ->
  Lexer.get_next_token (Lexer.at_ src n)
  = Ret (mkToken (if bool_decide (String c w ∈ Lexer.KEYWORDS)
                  then upper (String c w) else "IDENT")
                 (String c w))
        (Lexer.at_ src (n + String.length (String c w))).
Proof.
  intros E Hc Hw Htl.
  destruct (ident_start_class c Hc) as (Hsp & Hsl & Hq).
  unfold Lexer.get_next_token, Lexer.budget.
  cbn [Lexer.get_next_token_loop]. rewrite Lexer_current_at, E.
  rewrite append_cons. simpl shead. cbv iota. rewrite Hsp.
  assert (Hcom : Lexer.at_comment (Lexer.at_ src n) = false).
  { unfold Lexer.at_comment, Lexer.current_is.
    rewrite Lexer_current_at, E, append_cons. simpl. rewrite Hsl. reflexivity. }
  rewrite Hcom. unfold Lexer.is_ident_start in Hc. rewrite Hc.
  erewrite bind_Ret by apply Lexer_get_identifier_at.
  rewrite E.
  destruct (take_while_app Lexer.is_ident_char (String c w) tl) as [-> _].
  { simpl. rewrite (ident_start_ident_char c); [exact Hw | exact Hc]. }
  { exact Htl. }
  case_bool_decide; reflexivity.
Qed.

(** A double quote with no closing quote after it: the rest of the source
    becomes the string, and the lexer ends up past the end. *)
Lemma Lexer_unterminated_at (src : string) (n : nat) (body : string) :
  sdrop n src = String dquote body ->
  sforallb (fun c => negb (char_eqb c dquote)) body = true ->
  Lexer.get_next_token (Lexer.at_ src n)
  = Ret (mkToken "STRING" (str_of_char dquote +:+ body +:+ str_of_char dquote))
        (Lexer.mk src (String.length src + 1) None).
Proof.
  intros E Hbody.
  destruct (sdrop_cons_lt _ _ _ _ E) as [Hn Er].
  unfold Lexer.get_next_token, Lexer.budget.
  cbn [Lexer.get_next_token_loop]. rewrite Lexer_current_at, E.
  simpl shead. cbv iota.
  change (isspace dquote) with false. cbv iota.
  assert (Hcom : Lexer.at_comment (Lexer.at_ src n) = false).
  { unfold Lexer.at_comment, Lexer.current_is.
    rewrite Lexer_current_at, E. reflexivity. }
  rewrite Hcom.
  change (isalpha dquote || char_eqb dquote "_") with false. cbv iota.
  change (char_eqb dquote dquote) with true. cbv iota.
  erewrite bind_Ret by apply Lexer_get_string_at.
  rewrite Er. destruct (take_while_all _ body Hbody) as [-> _].
  pose proof (length_sdrop src n) as L. rewrite E in L. simpl in L.
  replace (n + 1 + String.length body + 1) with (String.length src + 1) by lia.
  unfold Lexer.at_. rewrite get_shead_sdrop, sdrop_ge by lia. reflexivity.
Qed.

(** A character that is neither blank, nor the start of a comment, a word
    or a string, nor punctuation, is stepped over: the call goes on as if
    it had started one character later. *)
Lemma Lexer_skip_other_at (src : string) (n : nat) (c : ascii) :
  Lexer.current_char (Lexer.at_ src n) = Some c ->
  isspace c = false ->
  char_eqb c "/" = false ->
  Lexer.is_ident_start c = false ->
  char_eqb c dquote = false ->
  c ∉ Lexer.PUNCTUATION ->
  Lexer.get_next_token (Lexer.at_ src n)
  = Lexer.get_next_token (Lexer.at_ src (n + 1)).
Proof.
  intros Hcur Hsp Hsl Hid Hq Hp.
  assert (Hcom : Lexer.at_comment (Lexer.at_ src n) = false).
  { unfold Lexer.at_comment, Lexer.current_is. rewrite Hcur, Hsl. reflexivity. }
  assert (Hn : n < String.length src).
  { rewrite Lexer_current_at in Hcur.
    destruct (sdrop n src) as [|d r] eqn:E; [discriminate|].
    apply (sdrop_cons_lt _ _ _ _ E). }
  unfold Lexer.get_next_token at 1. unfold Lexer.budget.
  cbn [Lexer.get_next_token_loop]. rewrite Hcur, Hsp, Hcom.
  unfold Lexer.is_ident_start in Hid. rewrite Hid, Hq.
  rewrite bool_decide_eq_false_2 by exact Hp.
  erewrite bind_Ret by apply Lexer_advance_at.
  unfold Lexer.get_next_token, Lexer.budget.
  cbn [Lexer.at_ Lexer.source Lexer.pos].
  replace (S (String.length src - (n + 1))) with (String.length src - n) by lia.
  reflexivity.
Qed.

(** ** Parser: every method returns or raises, and consumes tokens *)

Section ParserSpec.

Variable ok : Token -> Prop.
Hypothesis ok_EOF : ok Parser.EOF.

Local Abbreviation spec := (Parser.spec ok).

Lemma Parser_pre_init (toks : list Token) :
  Forall ok toks -> Parser.pre ok (Parser.init toks).
Proof.
  intros H. split; [|exact H].
  unfold Parser.wf, Parser.init. destruct toks; reflexivity.
Qed.

Lemma Parser_ok_token_at (toks : list Token) (i : nat) :
  Forall ok toks -> ok (Parser.token_at toks i).
Proof.
  intros H. unfold Parser.token_at.
  destruct (toks !! i) as [tok|] eqn:E; [|exact ok_EOF].
  eapply Forall_lookup_1; eauto.
Qed.

Lemma Parser_pre_current (p : Parser.t) :
  Parser.pre ok p -> ok (Parser.current_token p).
Proof.
  intros [Hwf Hall]. rewrite Hwf.
  destruct (_ <? _); [apply Parser_ok_token_at; exact Hall | exact ok_EOF].
Qed.

Lemma moved_refl (p : Parser.t) : Parser.moved false p p.
Proof. unfold Parser.moved. auto. Qed.

Lemma moved_trans (s1 s2 : bool) (p1 p2 p3 : Parser.t) :
  Parser.moved s1 p1 p2 -> Parser.moved s2 p2 p3 ->
  Parser.moved (s1 || s2) p1 p3.
Proof.
  unfold Parser.moved. intros (Ht1 & Hp1 & Hr1) (Ht2 & Hp2 & Hr2).
  split; [congruence|]. destruct s1, s2; simpl; lia.
Qed.

Lemma moved_weaken (s s' : bool) (p p' : Parser.t) :
  (s' = true -> s = true) -> Parser.moved s p p' -> Parser.moved s' p p'.
Proof.
  unfold Parser.moved. intros Hs (Ht & Hp & Hr). split; [exact Ht|].
  destruct s, s'; try lia; discriminate (Hs eq_refl).
Qed.

Lemma spec_ret {A} (R : A -> Prop) (a : A) : R a -> spec false R (mret a).
Proof.
  intros HR p Hp. simpl. split; [exact Hp|]. split; [apply moved_refl | exact HR].
Qed.

Lemma spec_weaken {A} (s s' : bool) (R R' : A -> Prop) (m : M Parser.t A) :
  spec s R m -> (s' = true -> s = true) -> (forall a, R a -> R' a) ->
  spec s' R' m.
Proof.
  intros Hm Hs HR p Hp. specialize (Hm p Hp).
  destruct (m p) as [a p'| |]; auto.
  destruct Hm as (Hp' & Hd & Ha). split; [exact Hp'|]. split; [|auto].
  eapply moved_weaken; eauto.
Qed.

Lemma spec_bind {A B} (s1 s2 : bool) (R1 : A -> Prop) (R2 : B -> Prop)
    (m : M Parser.t A) (k : A -> M Parser.t B) :
  spec s1 R1 m -> (forall a, R1 a -> spec s2 R2 (k a)) ->
  spec (s1 || s2) R2 (m ≫= k).
Proof.
  intros Hm Hk p Hp. unfold mbind, M_bind. specialize (Hm p Hp).
  destruct (m p) as [a p1| |]; auto.
  destruct Hm as (Hp1 & Hd1 & Ha).
  specialize (Hk a Ha p1 Hp1).
  destruct (k a p1) as [b p2| |]; auto.
  destruct Hk as (Hp2 & Hd2 & Hb). split; [exact Hp2|]. split; [|exact Hb].
  eapply moved_trans; eauto.
Qed.

(** A method that starts by consuming a token. *)
Lemma spec_bind_strict {A B} (R1 : A -> Prop) (R2 : B -> Prop)
    (m : M Parser.t A) (k : A -> M Parser.t B) :
  spec true R1 m -> (forall a, R1 a -> spec false R2 (k a)) ->
  spec true R2 (m ≫= k).
Proof. intros Hm Hk. exact (spec_bind true false R1 R2 m k Hm Hk). Qed.

Lemma spec_bind_weak {A B} (s : bool) (R1 : A -> Prop) (R2 : B -> Prop)
    (m : M Parser.t A) (k : A -> M Parser.t B) :
  spec s R1 m -> (forall a, R1 a -> spec false R2 (k a)) ->
  spec false R2 (m ≫= k).
Proof.
  intros Hm Hk. eapply spec_weaken; [exact (spec_bind _ _ _ _ m k Hm Hk) | |auto].
  discriminate.
Qed.

(** The [while] rule: when every iteration that returns has consumed a
    token, the loop ends within [Parser.budget]. *)
Lemma spec_loop {A} (R : A -> Prop) (cond : Parser.t -> bool)
    (body : A -> M Parser.t A) (acc : A) :
  (forall acc, R acc -> spec true R (body acc)) ->
  R acc ->
  spec false R (Parser.loop cond body acc).
Proof.
  intros Hbody Hacc p Hp. unfold Parser.loop, Parser.budget.
  fold (Parser.remaining p).
  assert (Hgen : forall fuel p0 acc0,
             Parser.pre ok p0 -> R acc0 -> Parser.remaining p0 < fuel ->
             match while_ fuel cond body acc0 p0 with
             | Ret a p' =>
                 Parser.pre ok p' /\ Parser.moved false p0 p' /\ R a
             | Raise _ _ => True
             | OutOfFuel => False
             end).
  { induction fuel as [|fuel IH]; intros p0 acc0 Hp0 Hacc0 Hf; [lia|].
    cbn [while_].
    destruct (cond p0); [|split; [exact Hp0|]; split; [apply moved_refl|exact Hacc0]].
    specialize (Hbody acc0 Hacc0 p0 Hp0).
    destruct (body acc0 p0) as [acc1 p1| |]; auto.
    destruct Hbody as (Hp1 & Hd & Hacc1).
    assert (Hf1 : Parser.remaining p1 < fuel).
    { destruct Hd as (_ & _ & Hd). lia. }
    specialize (IH p1 acc1 Hp1 Hacc1 Hf1).
    destruct (while_ fuel cond body acc1 p1) as [a p'| |]; auto.
    destruct IH as (Hp' & Hd' & Ha). split; [exact Hp'|]. split; [|exact Ha].
    apply (moved_weaken true false); [discriminate|].
    exact (moved_trans true false _ _ _ Hd Hd'). }
  apply Hgen; auto.
Qed.

(** [expect] of anything but the type or the value of the synthesized
    [EOF] token consumes a token or raises. *)
Lemma spec_expect (expected : string) :
  expected <> "EOF" -> expected <> EmptyString ->
  spec true ok (Parser.expect expected).
Proof.
  intros Hne1 Hne2 p Hp. pose proof (Parser_pre_current p Hp) as Hcur.
  destruct Hp as [Hwf Hall]. unfold Parser.expect.
  destruct (String.eqb (type (Parser.current_token p)) expected
            || String.eqb (value (Parser.current_token p)) expected) eqn:E;
    [|exact I].
  assert (Hlt : Parser.pos p < length (Parser.tokens p)).
  { unfold Parser.wf in Hwf.
    destruct (Nat.ltb_spec (Parser.pos p) (length (Parser.tokens p))); [assumption|].
    rewrite Hwf in E. unfold Parser.EOF in E. cbn [type value] in E.
    apply orb_true_iff in E as [E|E]; apply String.eqb_eq in E; congruence. }
  simpl. split; [split; [reflexivity | exact Hall]|].
  split; [|exact Hcur]. unfold Parser.moved, Parser.remaining. simpl.
  split; [reflexivity | lia].
Qed.

Lemma spec_cond {A} (s : bool) (R : A -> Prop) (c : Parser.t -> bool)
    (m1 m2 : M Parser.t A) :
  spec s R m1 -> spec s R m2 ->
  spec s R (fun p => if c p then m1 p else m2 p).
Proof.
  intros H1 H2 p Hp. destruct (c p); [exact (H1 p Hp) | exact (H2 p Hp)].
Qed.

Lemma spec_raise {A} (s : bool) (R : A -> Prop) (e : exn) :
  spec s R (fun p => Raise e p).
Proof. intros p Hp. exact I. Qed.

Lemma spec_raise_at {A} (s : bool) (R : A -> Prop) (e : Parser.t -> exn) :
  spec s R (fun p => Raise (e p) p).
Proof. intros p Hp. exact I. Qed.

Local Abbreviation any := Parser.any.

Lemma spec_expect_any (s : bool) (expected : string) :
  expected <> "EOF" -> expected <> EmptyString ->
  spec s any (Parser.expect expected).
Proof.
  intros H1 H2. eapply spec_weaken; [apply spec_expect; assumption | auto |].
  intros; exact I.
Qed.

(** One step of a proof about a method body: the next call is an [expect]
    of a literal, or a method whose specification is [H]. *)
Ltac first_expect :=
  eapply spec_bind_strict; [apply spec_expect_any; discriminate|]; intros ? _.

Ltac then_expect :=
  eapply spec_bind_weak; [apply (spec_expect_any true); discriminate|];
  intros ? _.

Ltac first_call H := eapply spec_bind_strict; [apply H|]; intros ? _.

Ltac then_call H := eapply spec_bind_weak; [apply H|]; intros ? _.

Ltac done_any := apply spec_ret; exact I.

Lemma spec_parse_expression : spec true any Parser.parse_expression.
Proof.
  unfold Parser.parse_expression. apply spec_cond; [|apply spec_raise].
  first_expect. done_any.
Qed.

Lemma spec_parse_return : spec true any Parser.parse_return.
Proof.
  unfold Parser.parse_return.
  first_expect.
  then_call spec_parse_expression.
  then_expect. done_any.
Qed.

Lemma spec_skip_comma : spec false any Parser.skip_comma.
Proof.
  unfold Parser.skip_comma. apply spec_cond; [|apply (spec_ret any); exact I].
  then_expect. done_any.
Qed.

Lemma spec_call_args_step (args : list Expression) :
  spec true any (Parser.call_args_step args).
Proof.
  unfold Parser.call_args_step.
  first_call spec_parse_expression. cbv zeta.
  then_call spec_skip_comma.
  done_any.
Qed.

Lemma spec_parse_call : spec true any Parser.parse_call.
Proof.
  unfold Parser.parse_call.
  first_expect.
  then_expect.
  eapply spec_bind_weak.
  { apply (spec_loop any); [|exact I]. intros args _.
    apply spec_call_args_step. }
  intros args _.
  then_expect.
  then_expect. done_any.
Qed.

Lemma spec_parse_statement : spec true any Parser.parse_statement.
Proof.
  unfold Parser.parse_statement.
  apply spec_cond; [apply spec_parse_return|].
  apply spec_cond; [apply spec_parse_call | apply spec_raise_at].
Qed.

Local Abbreviation returns_void_or_arrow :=
  (Parser.returns_void_or_arrow ok).

Lemma spec_parse_returns :
  spec false returns_void_or_arrow Parser.parse_returns.
Proof.
  intros p Hp. unfold Parser.parse_returns.
  destruct (Parser.value_is "->" p) eqn:E.
  - assert (Harrow : forall r, returns_void_or_arrow r).
    { intros r. right. exists (Parser.current_token p).
      split; [apply Parser_pre_current; exact Hp|].
      apply String.eqb_eq. exact E. }
    revert p Hp E. 
    assert (Hs : spec false returns_void_or_arrow
              (Parser.expect "->";; tok ← Parser.expect "IDENT"; mret (value tok))).
    { then_expect.
      then_expect. apply spec_ret. apply Harrow. }
    intros p Hp _. exact (Hs p Hp).
  - split; [exact Hp|]. split; [apply moved_refl | left; reflexivity].
Qed.

Lemma spec_function_params_step (params : list (string * string)) :
  spec true any (Parser.function_params_step params).
Proof.
  unfold Parser.function_params_step.
  first_expect.
  then_expect.
  then_expect. cbv zeta.
  then_call spec_skip_comma.
  done_any.
Qed.

Lemma spec_function_body_step (body : list Statement) :
  spec true any (Parser.function_body_step body).
Proof.
  unfold Parser.function_body_step.
  first_call spec_parse_statement.
  done_any.
Qed.

Lemma spec_parse_function :
  spec true (fun f => returns_void_or_arrow (returns f)) Parser.parse_function.
Proof.
  unfold Parser.parse_function.
  first_expect.
  then_expect.
  then_expect.
  eapply spec_bind_weak.
  { apply (spec_loop any); [|exact I]. intros params _.
    apply spec_function_params_step. }
  intros params _.
  then_expect.
  eapply spec_bind_weak; [apply spec_parse_returns|]. intros returns Hret.
  then_expect.
  eapply spec_bind_weak.
  { apply (spec_loop any); [|exact I]. intros body _.
    apply spec_function_body_step. }
  intros body _.
  then_expect. apply spec_ret. exact Hret.
Qed.

Lemma spec_import_path_step (path : list string) :
  spec true any (Parser.import_path_step path).
Proof.
  unfold Parser.import_path_step.
  first_expect.
  then_expect. done_any.
Qed.

Lemma spec_parse_import : spec true any Parser.parse_import.
Proof.
  unfold Parser.parse_import.
  first_expect.
  then_expect.
  eapply spec_bind_weak.
  { apply (spec_loop any); [|exact I]. intros path _.
    apply spec_import_path_step. }
  intros path _.
  then_expect. done_any.
Qed.

Lemma spec_module_imports_step (imports : list string) :
  spec true any (Parser.module_imports_step imports).
Proof.
  unfold Parser.module_imports_step.
  first_call spec_parse_import.
  done_any.
Qed.

Lemma spec_module_functions_step (functions : list Function_) :
  Forall (fun f => returns_void_or_arrow (returns f)) functions ->
  spec true (Forall (fun f => returns_void_or_arrow (returns f)))
    (Parser.module_functions_step functions).
Proof.
  intros Hfs. unfold Parser.module_functions_step.
  eapply spec_bind_strict; [apply spec_parse_function|]. intros f Hf.
  apply spec_ret. apply Forall_app. split; [exact Hfs|].
  constructor; [exact Hf | constructor].
Qed.

Lemma spec_parse_module :
  spec true
    (fun m => Forall (fun f => returns_void_or_arrow (returns f)) (functions m))
    Parser.parse_module.
Proof.
  unfold Parser.parse_module.
  first_expect.
  then_expect.
  then_expect.
  eapply spec_bind_weak.
  { apply (spec_loop any); [|exact I]. intros imports _.
    apply spec_module_imports_step. }
  intros imports _.
  eapply spec_bind_weak.
  { apply (spec_loop
             (Forall (fun f => returns_void_or_arrow (returns f))));
      [|constructor].
    intros functions Hfs. apply spec_module_functions_step. exact Hfs. }
  intros functions Hfs. apply spec_ret. exact Hfs.
Qed.

End ParserSpec.

Lemma Parser_parse_total (toks : list Token) :
  match Parser.parse (Parser.init toks) with
  | OutOfFuel => False
  | _ => True
  end.
Proof.
  pose proof (spec_parse_module (fun _ => True) I (Parser.init toks)) as H.
  specialize (H (Parser_pre_init _ toks (Forall_true _ toks (fun _ => I)))).
  unfold Parser.parse. destruct (Parser.parse_module _); auto.
Qed.

Lemma Parser_parse_void (toks : list Token) (m : Module_) (p' : Parser.t) :
  Forall (fun tok => value tok <> "->") toks ->
  Parser.parse (Parser.init toks) = Ret m p' ->
  Forall (fun f => returns f = "void") (functions m).
Proof.
  intros Htoks Hrun.
  pose proof (spec_parse_module (fun tok => value tok <> "->")
                ltac:(discriminate) (Parser.init toks)
                (Parser_pre_init _ toks Htoks)) as H.
  unfold Parser.parse in Hrun. rewrite Hrun in H.
  destruct H as (_ & _ & H). eapply Forall_impl; [exact H|].
  intros f [Hv | (tok & Hok & Hval)]; [exact Hv | contradiction].
Qed.

(** ** Code generator *)

Lemma type_map_get_spec (name : string) :
  CodeGenerator.type_map_get name "int" = CodeGenerator.spec_type name.
Proof.
  unfold CodeGenerator.type_map_get, CodeGenerator.type_map,
    CodeGenerator.spec_type.
  destruct (String.eqb_spec name "int") as [->|H1]; [reflexivity|].
  rewrite lookup_insert_ne by congruence.
  destruct (String.eqb_spec name "void") as [->|H2]; [reflexivity|].
  rewrite lookup_insert_ne by congruence.
  destruct (String.eqb_spec name "word") as [->|H3]; [reflexivity|].
  rewrite lookup_insert_ne by congruence.
  destruct (String.eqb_spec name "ptr") as [->|H4]; [reflexivity|].
  rewrite lookup_singleton_ne by congruence. reflexivity.
Qed.

Lemma generate_statement_outcome (stmt : Statement) (g : CodeGenerator.t) :
  match CodeGenerator.generate_statement stmt g with
  | Ret _ g' =>
      stmt <> CodeGenerator.empty_print
      /\ CodeGenerator.indent g' = CodeGenerator.indent g
      /\ CodeGenerator.extends g g'
  | Raise e g' =>
      stmt = CodeGenerator.empty_print
      /\ e = CodeGenerator.index_error /\ g' = g
  | OutOfFuel => False
  end.
Proof.
  destruct stmt as [func args | [v]]; simpl.
  - unfold CodeGenerator.generate_call.
    destruct (String.eqb_spec func "print") as [->|Hne].
    + destruct args as [|arg args]; simpl.
      * auto.
      * split; [discriminate|]. split; [reflexivity|]. eexists; reflexivity.
    + simpl. split; [unfold CodeGenerator.empty_print; congruence|].
      split; [reflexivity|]. eexists; reflexivity.
  - split; [discriminate|]. split; [reflexivity|]. eexists; reflexivity.
Qed.

Lemma extends_refl (g : CodeGenerator.t) : CodeGenerator.extends g g.
Proof. exists []. rewrite app_nil_r. reflexivity. Qed.

Lemma extends_trans (g1 g2 g3 : CodeGenerator.t) :
  CodeGenerator.extends g1 g2 -> CodeGenerator.extends g2 g3 ->
  CodeGenerator.extends g1 g3.
Proof.
  intros [l1 H1] [l2 H2]. exists (l1 ++ l2).
  rewrite H2, H1, app_assoc. reflexivity.
Qed.

Lemma generate_body_outcome (stmts : list Statement) :
  forall g : CodeGenerator.t,
    match for_ stmts CodeGenerator.generate_statement g with
    | Ret _ g' =>
        (CodeGenerator.empty_print ∉ stmts)
        /\ CodeGenerator.indent g' = CodeGenerator.indent g
        /\ CodeGenerator.extends g g'
    | Raise e g' =>
        (CodeGenerator.empty_print ∈ stmts)
        /\ e = CodeGenerator.index_error
        /\ CodeGenerator.extends g g'
    | OutOfFuel => False
    end.
Proof.
  induction stmts as [|stmt stmts IH]; intros g; cbn [for_].
  - split; [apply not_elem_of_nil|]. split; [reflexivity | apply extends_refl].
  - unfold mbind, M_bind.
    pose proof (generate_statement_outcome stmt g) as Hs.
    destruct (CodeGenerator.generate_statement stmt g) as [[] g1|e g1|]; [| |auto].
    + destruct Hs as (Hne & Hi & He). specialize (IH g1).
      destruct (for_ stmts CodeGenerator.generate_statement g1) as [[] g2|e g2|];
        [| |auto].
      * destruct IH as (Hnin & Hi2 & He2).
        split; [rewrite not_elem_of_cons; auto|].
        split; [congruence | eapply extends_trans; eauto].
      * destruct IH as (Hin & -> & He2).
        split; [apply list_elem_of_further; exact Hin|].
        split; [reflexivity | eapply extends_trans; eauto].
    + destruct Hs as (-> & -> & ->).
      split; [apply list_elem_of_here|]. split; [reflexivity | apply extends_refl].
Qed.

Lemma signature_spec (func : Function_) :
  CodeGenerator.type_map_get (returns func) "int" +:+ " " +:+ fname func +:+ "("
  +:+ join ", "
        (map (fun '(name, typ) =>
                CodeGenerator.type_map_get typ "int" +:+ " " +:+ name)
             (params func))
  +:+ ") {"
  = CodeGenerator.spec_signature func.
Proof.
  unfold CodeGenerator.spec_signature. rewrite type_map_get_spec.
  do 4 f_equal. f_equal. f_equal. apply map_ext. intros [name typ]. simpl.
  rewrite type_map_get_spec. reflexivity.
Qed.

(** [generate_function] always emits the signature line first; it raises
    exactly when the body holds a [print] call without arguments. *)
Lemma generate_function_outcome (func : Function_) (g : CodeGenerator.t) :
  let line :=
    str_mul "    " (CodeGenerator.indent g) +:+ CodeGenerator.spec_signature func in
  match CodeGenerator.generate_function func g with
  | Ret _ g' =>
      (CodeGenerator.empty_print ∉ body func)
      /\ CodeGenerator.indent g' = CodeGenerator.indent g
      /\ exists lines,
          CodeGenerator.output g' = CodeGenerator.output g ++ line :: lines
  | Raise e g' =>
      (CodeGenerator.empty_print ∈ body func)
      /\ e = CodeGenerator.index_error
      /\ exists lines,
          CodeGenerator.output g' = CodeGenerator.output g ++ line :: lines
  | OutOfFuel => False
  end.
Proof.
  intros line. unfold CodeGenerator.generate_function.
  rewrite signature_spec. unfold mbind, M_bind.
  cbn [CodeGenerator.emit CodeGenerator.add_indent].
  cbn [CodeGenerator.output CodeGenerator.indent].
  fold line.
  match goal with
  | |- context [for_ _ _ ?g1] =>
      pose proof (generate_body_outcome (body func) g1) as H;
      destruct (for_ (body func) CodeGenerator.generate_statement g1)
        as [[] g2|e g2|]
  end; [| |auto].
  - destruct H as (Hnin & Hi & [lines Ho]). cbn in Hi, Ho.
    cbn [CodeGenerator.output CodeGenerator.indent].
    unfold CodeGenerator.emit. cbn [CodeGenerator.output CodeGenerator.indent].
    split; [exact Hnin|]. split; [rewrite Hi; lia|].
    rewrite Ho. eexists. rewrite <- !app_assoc. reflexivity.
  - destruct H as (Hin & -> & [lines Ho]). cbn in Ho.
    split; [exact Hin|]. split; [reflexivity|].
    rewrite Ho. eexists. rewrite <- !app_assoc. reflexivity.
Qed.

Lemma generate_functions_outcome (funcs : list Function_) :
  forall g : CodeGenerator.t,
    match for_ funcs CodeGenerator.generate_function g with
    | Ret _ _ => Forall (fun f => CodeGenerator.empty_print ∉ body f) funcs
    | Raise e _ =>
        e = CodeGenerator.index_error
        /\ Exists (fun f => CodeGenerator.empty_print ∈ body f) funcs
    | OutOfFuel => False
    end.
Proof.
  induction funcs as [|f funcs IH]; intros g; cbn [for_].
  - constructor.
  - unfold mbind, M_bind.
    pose proof (generate_function_outcome f g) as Hf. cbv zeta in Hf.
    destruct (CodeGenerator.generate_function f g) as [[] g1|e g1|]; [| |auto].
    + destruct Hf as (Hnin & _). specialize (IH g1).
      destruct (for_ funcs CodeGenerator.generate_function g1) as [[] g2|e g2|];
        [| |auto].
      * constructor; assumption.
      * destruct IH as [-> Hex]. split; [reflexivity|].
        apply Exists_cons_tl. exact Hex.
    + destruct Hf as (Hin & -> & _). split; [reflexivity|].
      apply Exists_cons_hd. exact Hin.
Qed.

Lemma generate_imports_returns (imps : list string) :
  forall g : CodeGenerator.t,
    exists g',
      for_ imps
        (fun imp =>
           if String.eqb imp "std.io"
           then CodeGenerator.emit "void std_io_print(const char* msg);"
           else mret tt) g
      = Ret tt g'.
Proof.
  induction imps as [|imp imps IH]; intros g; cbn [for_].
  - eexists; reflexivity.
  - unfold mbind, M_bind. destruct (String.eqb imp "std.io"); simpl; apply IH.
Qed.

Lemma generate_outcome (module : Module_) (g : CodeGenerator.t) :
  match CodeGenerator.generate module g with
  | Ret _ _ =>
      Forall (fun f => CodeGenerator.empty_print ∉ body f) (functions module)
  | Raise e _ =>
      e = CodeGenerator.index_error
      /\ Exists (fun f => CodeGenerator.empty_print ∈ body f)
                (functions module)
  | OutOfFuel => False
  end.
Proof.
  unfold CodeGenerator.generate, mbind, M_bind.
  cbn [CodeGenerator.emit].
  match goal with
  | |- context [for_ (imports module) ?f ?g1] =>
      destruct (generate_imports_returns (imports module) g1) as [g2 ->]
  end.
  apply generate_functions_outcome.
Qed.

(** ** Parser: consequences of the specifications *)

Lemma Parser_pre_wf (p : Parser.t) :
  Parser.wf p -> Parser.pre (fun _ => True) p.
Proof. intros H. split; [exact H | apply Forall_true; auto]. Qed.

Lemma Parser_spec_consumes {A} (R : A -> Prop) (body : A -> M Parser.t A) :
  (forall acc, Parser.spec (fun _ => True) true R (body acc)) ->
  Parser.consumes body.
Proof.
  intros H acc p Hp. specialize (H acc p (Parser_pre_wf p Hp)).
  destruct (body acc p); auto. destruct H as (_ & H & _). exact H.
Qed.

Lemma Parser_expect_at_end (p : Parser.t) (expected : string) :
  Parser.wf p -> length (Parser.tokens p) <= Parser.pos p ->
  expected <> "EOF" -> expected <> EmptyString ->
  Parser.current_token p = Parser.EOF
  /\ Parser.expect expected p
     = Raise (SyntaxError ("Expected " +:+ expected +:+ ", got Token(EOF, '')")) p.
Proof.
  intros Hwf Hlen H1 H2. unfold Parser.wf in Hwf.
  destruct (Nat.ltb_spec (Parser.pos p) (length (Parser.tokens p))); [lia|].
  split; [exact Hwf|]. unfold Parser.expect. rewrite Hwf.
  unfold Parser.EOF. cbn [type value].
  destruct (String.eqb_spec "EOF" expected); [congruence|].
  destruct (String.eqb_spec EmptyString expected); [congruence|].
  reflexivity.
Qed.

Lemma Parser_expect_raises (p p' : Parser.t) (expected : string) (e : exn) :
  Parser.expect expected p = Raise e p' -> is_SyntaxError e = true.
Proof.
  unfold Parser.expect. destruct (_ || _); [discriminate|].
  intros [= <- _]. reflexivity.
Qed.

(** ** Examples *)

(** The driver's tokens for a source that ends inside a string. *)
Example tokenize_unterminated :
  detach (RereCompiler.tokenize Examples.unterminated)
  = Ret [mkToken "IDENT" "print"; mkToken "(" "(";
         mkToken "STRING" (Examples.q +:+ "abc" +:+ Examples.q)] tt.
Proof. vm_compute. reflexivity. Qed.

(** The arrow of a declared return type leaves no token, so the return type
    name is met where the opening brace is expected. *)
Example declared_return_type_rejected :
  RereCompiler.parse_source "module m; func f() -> int { }"
  = Raise (SyntaxError "Expected {, got Token(IDENT, 'int')") tt.
Proof. vm_compute. reflexivity. Qed.

(** The arrow branch of [parse_function] is taken only on a token list built
    by hand, which the lexer never produces. *)
Example arrow_token_by_hand :
  detach (Parser.parse
            (Parser.init
               [mkToken "MODULE" "module"; mkToken "IDENT" "m"; mkToken ";" ";";
                mkToken "FUNC" "func"; mkToken "IDENT" "f"; mkToken "(" "(";
                mkToken ")" ")"; mkToken "->" "->"; mkToken "IDENT" "int";
                mkToken "{" "{"; mkToken "}" "}"]))
  = Ret (mkModule "m" [] [mkFunction "f" [] "int" []]) tt.
Proof. vm_compute. reflexivity. Qed.

(** * The claims *)

(** C1, as stated (parsing the source with a comma right before the closing
    parenthesis of a parameter list raises a [SyntaxError]), does not hold:
    no [SyntaxError] is raised on that source. *)
Lemma C1_trailing_comma_no_syntax_error :
  ~ (exists msg,
       RereCompiler.parse_source Examples.trailing_comma
       = Raise (SyntaxError msg) tt).
Proof. intros [msg H]. vm_compute in H. discriminate H. Qed.

(** C1, amended: parsing [module m; func f(a: int,) { }] does not raise;
    the parameter loop consumes the comma, sees the closing parenthesis and
    stops, and the parser returns the module [m] with the one function [f],
    its one parameter [a] of type [int], the default return type [void] and
    an empty body. *)
Theorem C1_trailing_comma_accepted :
  RereCompiler.parse_source Examples.trailing_comma
  = Ret (mkModule "m" [] [mkFunction "f" [("a", "int")] "void" []]) tt.
Proof. vm_compute. reflexivity. Qed.

(** C2: for every source text the lexer produces no token whose value is
    [-], [>] or [->], neither among the tokens the driver collects nor from
    any single call of [get_next_token]; when [get_next_token] meets [-] or
    [>] it steps over the character and goes on as if called one character
    later; consequently, whenever the parser succeeds on the tokens of a
    source text, every function of the module has return type [void]. *)
Theorem C2_no_arrow_token_void_return (source : string) :
  (forall l : Lexer.t,
      Lexer.wf l ->
      exists tok l',
        Lexer.get_next_token l = Ret tok l'
        /\ value tok <> "-" /\ value tok <> ">" /\ value tok <> "->")
  /\ (forall (l : Lexer.t) (c : ascii),
        Lexer.wf l ->
        Lexer.current_char l = Some c ->
        c = "-"%char \/ c = ">"%char ->
        exists l1,
          Lexer.advance l = Ret tt l1
          /\ Lexer.get_next_token l = Lexer.get_next_token l1)
  /\ exists toks l,
      RereCompiler.tokenize source = Ret toks l
      /\ Forall (fun tok =>
                   value tok <> "-" /\ value tok <> ">" /\ value tok <> "->")
                toks
      /\ forall m,
          RereCompiler.parse_source source = Ret m tt ->
          Forall (fun f => returns f = "void") (functions m).
Proof.
  split.
  - intros l Hwf. rewrite (Lexer_wf_at l Hwf).
    destruct (Lexer_get_next_token_at (Lexer.source l) (Lexer.pos l))
      as (tok & n' & Hrun & Hshape & _).
    exists tok, (Lexer.at_ (Lexer.source l) n').
    split; [exact Hrun | apply token_shape_value; exact Hshape].
  - split.
    { intros l c Hwf Hcur Hc. rewrite (Lexer_wf_at l Hwf) in Hcur |- *.
      eexists. split; [apply Lexer_advance_at|].
      apply (Lexer_skip_other_at _ _ c Hcur);
        try (destruct Hc as [-> | ->]; reflexivity).
      rewrite PUNCTUATION_elem.
      destruct Hc as [-> | ->]; intros H;
        repeat destruct H as [H|H]; discriminate H. }
    destruct (tokenize_total source) as (toks & l & Hrun & Hshapes).
    exists toks, l. split; [exact Hrun|].
    assert (Hvalues : Forall (fun tok =>
                value tok <> "-" /\ value tok <> ">" /\ value tok <> "->") toks).
    { eapply Forall_impl; [exact Hshapes|]. apply token_shape_value. }
    split; [exact Hvalues|].
    intros m Hparse. unfold RereCompiler.parse_source in Hparse.
    rewrite Hrun in Hparse.
    destruct (Parser.parse (Parser.init toks)) as [m' p'| |] eqn:E;
      try discriminate Hparse.
    injection Hparse as ->.
    eapply Parser_parse_void; [|exact E].
    eapply Forall_impl; [exact Hvalues|]. intros tok (_ & _ & H). exact H.
Qed.

Lemma C2_no_arrow_token_void_return_witness :
  Lexer.wf (Lexer.init "a -> b")
  /\ RereCompiler.parse_source "module m; func f() { }"
     = Ret (mkModule "m" [] [mkFunction "f" [] "void" []]) tt
  /\ (exists tok l',
        Lexer.get_next_token (Lexer.init "a -> b") = Ret tok l'
        /\ value tok <> "-" /\ value tok <> ">" /\ value tok <> "->")
  /\ Lexer.current_char (Lexer.at_ "a -> b" 2) = Some "-"%char
  /\ (exists l1,
        Lexer.advance (Lexer.at_ "a -> b" 2) = Ret tt l1
        /\ Lexer.get_next_token (Lexer.at_ "a -> b" 2)
           = Lexer.get_next_token l1)
  /\ Forall (fun f => returns f = "void")
            (functions (mkModule "m" [] [mkFunction "f" [] "void" []])).
Proof.
  assert (Hwf : Lexer.wf (Lexer.init "a -> b")) by reflexivity.
  assert (Hparse : RereCompiler.parse_source "module m; func f() { }"
                   = Ret (mkModule "m" [] [mkFunction "f" [] "void" []]) tt)
    by (vm_compute; reflexivity).
  split; [exact Hwf|]. split; [exact Hparse|]. split.
  - exact (proj1 (C2_no_arrow_token_void_return "a -> b") _ Hwf).
  - split; [reflexivity|]. split.
    { apply (proj1 (proj2 (C2_no_arrow_token_void_return "a -> b"))
               (Lexer.at_ "a -> b" 2) "-"%char).
      - reflexivity.
      - reflexivity.
      - left. reflexivity. }
    destruct (proj2 (proj2
                (C2_no_arrow_token_void_return "module m; func f() { }")))
      as (toks & l & _ & _ & H).
    exact (H _ Hparse).
Defined.

(** C3: a [Call] of [print] with at least one argument makes the generator
    emit exactly [printf(<text of the first argument>);]: one line is added
    to the buffer, the indentation followed by that text, and the other
    arguments do not appear in it. *)
Theorem C3_print_forwards_first_argument
    (arg : Expression) (others : list Expression) (g : CodeGenerator.t) :
  CodeGenerator.generate_statement (Call "print" (arg :: others)) g
  = CodeGenerator.emit ("printf(" +:+ expr_value arg +:+ ");") g
  /\ CodeGenerator.generate_statement (Call "print" (arg :: others)) g
     = Ret tt
         (CodeGenerator.mk
            (CodeGenerator.output g
             ++ [str_mul "    " (CodeGenerator.indent g)
                 +:+ "printf(" +:+ expr_value arg +:+ ");"])
            (CodeGenerator.indent g))
  /\ RereCompiler.compile_to_c Examples.print_two
     = Ret (join (str_of_char newline)
              ["#include <stdio.h>"; "#include <stdlib.h>"; EmptyString;
               EmptyString; "void f() {";
               "    printf(" +:+ Examples.q +:+ "hi" +:+ Examples.q +:+ ");";
               "}"; EmptyString]) tt.
Proof.
  split; [reflexivity|]. split; [reflexivity|]. vm_compute. reflexivity.
Qed.

(** C4: a [Call] of [print] without arguments makes the generator raise the
    index error and add no line; generation of any module holding such a
    call aborts with that error; and the source [print();] inside a
    function body parses to such a call, so the whole pipeline raises. *)
Theorem C4_empty_print_aborts :
  (forall g : CodeGenerator.t,
      CodeGenerator.generate_statement (Call "print" []) g
      = Raise (IndexError "list index out of range") g)
  /\ (forall (module : Module_) (f : Function_) (g : CodeGenerator.t),
        f ∈ functions module ->
        Call "print" [] ∈ body f ->
        exists g',
          CodeGenerator.generate module g
          = Raise (IndexError "list index out of range") g')
  /\ RereCompiler.parse_source Examples.empty_print
     = Ret (mkModule "m" [] [mkFunction "f" [] "void" [Call "print" []]]) tt
  /\ RereCompiler.compile_to_c Examples.empty_print
     = Raise (IndexError "list index out of range") tt.
Proof.
  split; [reflexivity|]. split.
  - intros module f g Hf Hbody.
    pose proof (generate_outcome module g) as H.
    destruct (CodeGenerator.generate module g) as [[] g'|e g'|]; [| |contradiction].
    + exfalso. rewrite Forall_forall in H. exact (H f Hf Hbody).
    + destruct H as [-> _]. exists g'. reflexivity.
  - split; vm_compute; reflexivity.
Qed.

Lemma C4_empty_print_aborts_witness :
  exists g',
    CodeGenerator.generate
      (mkModule "m" [] [mkFunction "f" [] "void" [Call "print" []]])
      CodeGenerator.init
    = Raise (IndexError "list index out of range") g'.
Proof.
  apply (proj1 (proj2 C4_empty_print_aborts)
           (mkModule "m" [] [mkFunction "f" [] "void" [Call "print" []]])
           (mkFunction "f" [] "void" [Call "print" []])).
  - apply list_elem_of_here.
  - apply list_elem_of_here.
Defined.

(** C5: when the lexer stands at a double quote and no double quote follows
    it in the rest of the source, [get_next_token] does not raise: it
    returns a [STRING] token whose value is the rest of the source wrapped
    in double quotes, and the next call returns [EOF], so the driver's loop
    keeps that token and stops. *)
Theorem C5_unterminated_string (l : Lexer.t) (body : string) :
  Lexer.wf l ->
  Lexer.rest l = String dquote body ->
  sforallb (fun c => negb (char_eqb c dquote)) body = true ->
  let tok :=
    mkToken "STRING" (str_of_char dquote +:+ body +:+ str_of_char dquote) in
  exists l',
    Lexer.get_next_token l = Ret tok l'
    /\ Lexer.get_next_token l' = Ret (mkToken "EOF" EmptyString) l'
    /\ forall fuel acc,
        RereCompiler.tokenize_loop (S (S fuel)) acc l = Ret (acc ++ [tok]) l'.
Proof.
  intros Hwf Hrest Hbody tok. rewrite (Lexer_wf_at l Hwf).
  unfold Lexer.rest in Hrest.
  pose proof (Lexer_unterminated_at _ _ _ Hrest Hbody) as Hrun. fold tok in Hrun.
  eexists. split; [exact Hrun|]. split; [reflexivity|].
  intros fuel acc. cbn [RereCompiler.tokenize_loop].
  erewrite bind_Ret by exact Hrun. cbn [tok type String.eqb]. 
  reflexivity.
Qed.

Lemma C5_unterminated_string_witness :
  Lexer.wf (Lexer.at_ Examples.unterminated 6)
  /\ Lexer.rest (Lexer.at_ Examples.unterminated 6) = String dquote "abc"
  /\ exists l',
      Lexer.get_next_token (Lexer.at_ Examples.unterminated 6)
      = Ret (mkToken "STRING"
               (str_of_char dquote +:+ "abc" +:+ str_of_char dquote)) l'
      /\ Lexer.get_next_token l' = Ret (mkToken "EOF" EmptyString) l'.
Proof.
  split; [reflexivity|]. split; [reflexivity|].
  destruct (C5_unterminated_string (Lexer.at_ Examples.unterminated 6) "abc")
    as (l' & H1 & H2 & _); [reflexivity | reflexivity | reflexivity |].
  exists l'. split; [exact H1 | exact H2].
Defined.

(** C6: the generator's type table agrees with the fixed table
    int -> int, void -> void, word -> size_t, ptr -> void*, and gives [int]
    for every other name; the signature line [generate_function] emits is
    built from that table for the return type and for every parameter; and
    no type name makes it raise: the only error it can raise is the index
    error of a [print] call without arguments in the body. *)
Theorem C6_type_mapping (func : Function_) (g : CodeGenerator.t) :
  (forall name,
      CodeGenerator.type_map_get name "int" = CodeGenerator.spec_type name)
  /\ (CodeGenerator.type_map_get "int" "int" = "int"
      /\ CodeGenerator.type_map_get "void" "int" = "void"
      /\ CodeGenerator.type_map_get "word" "int" = "size_t"
      /\ CodeGenerator.type_map_get "ptr" "int" = "void*"
      /\ forall name,
          name ∉ ["int"; "void"; "word"; "ptr"] ->
          CodeGenerator.type_map_get name "int" = "int")
  /\ (exists g' lines,
        final_state (CodeGenerator.generate_function func g) = Some g'
        /\ CodeGenerator.output g'
           = CodeGenerator.output g
             ++ (str_mul "    " (CodeGenerator.indent g)
                 +:+ CodeGenerator.spec_signature func) :: lines)
  /\ match CodeGenerator.generate_function func g with
     | Ret _ _ => True
     | Raise e _ =>
         e = IndexError "list index out of range"
         /\ Call "print" [] ∈ body func
     | OutOfFuel => False
     end.
Proof.
  split; [apply type_map_get_spec|]. split.
  { repeat (split; [reflexivity|]). intros name Hname.
    rewrite type_map_get_spec. unfold CodeGenerator.spec_type.
    rewrite !not_elem_of_cons in Hname.
    destruct Hname as (H1 & H2 & H3 & H4 & _).
    apply String.eqb_neq in H1, H2, H3, H4. rewrite H1, H2, H3, H4.
    reflexivity. }
  pose proof (generate_function_outcome func g) as H. cbv zeta in H.
  destruct (CodeGenerator.generate_function func g) as [[] g'|e g'|];
    [| |contradiction].
  - destruct H as (_ & _ & lines & Hout). split; [|exact I].
    exists g', lines. split; [reflexivity | exact Hout].
  - destruct H as (Hin & -> & lines & Hout). split; [|split; [reflexivity|exact Hin]].
    exists g', lines. split; [reflexivity | exact Hout].
Qed.

Lemma C6_type_mapping_witness :
  ("mystery" ∉ ["int"; "void"; "word"; "ptr"])
  /\ CodeGenerator.type_map_get "mystery" "int" = "int"
  /\ RereCompiler.compile_to_c Examples.mystery
     = Ret (join (str_of_char newline)
              ["#include <stdio.h>"; "#include <stdlib.h>"; EmptyString;
               EmptyString; "void f(int x) {"; "}"; EmptyString]) tt.
Proof.
  assert (H : "mystery" ∉ ["int"; "void"; "word"; "ptr"]).
  { rewrite !not_elem_of_cons. repeat (split; [discriminate|]).
    apply not_elem_of_nil. }
  split; [exact H|]. split.
  - exact (proj2 (proj2 (proj2 (proj2 (proj1 (proj2
             (C6_type_mapping (mkFunction "f" [] "void" []) CodeGenerator.init))))))
           "mystery" H).
  - vm_compute. reflexivity.
Defined.

(** C7: when the current token's type is not [STRING], [parse_expression]
    raises [NotImplementedError], which is not a [SyntaxError], while a
    failed [expect] raises a [SyntaxError]; in particular parsing a function
    whose body is [return 1 + 2;] raises [NotImplementedError] and returns
    no tree. *)
Theorem C7_unsupported_expression :
  (forall p : Parser.t,
      type (Parser.current_token p) <> "STRING" ->
      Parser.parse_expression p
      = Raise (NotImplementedError "Complex expressions not implemented yet") p)
  /\ (forall msg, is_SyntaxError (NotImplementedError msg) = false)
  /\ (forall p p' expected e,
        Parser.expect expected p = Raise e p' -> is_SyntaxError e = true)
  /\ RereCompiler.parse_source Examples.unsupported_expression
     = Raise (NotImplementedError "Complex expressions not implemented yet") tt
  /\ RereCompiler.compile_to_c Examples.unsupported_expression
     = Raise (NotImplementedError "Complex expressions not implemented yet") tt.
Proof.
  split.
  { intros p Hp. unfold Parser.parse_expression.
    apply String.eqb_neq in Hp. rewrite Hp. reflexivity. }
  split; [reflexivity|]. split; [apply Parser_expect_raises|].
  split; vm_compute; reflexivity.
Qed.

Lemma C7_unsupported_expression_witness :
  type (Parser.current_token (Parser.init [mkToken ";" ";"])) <> "STRING"
  /\ Parser.parse_expression (Parser.init [mkToken ";" ";"])
     = Raise (NotImplementedError "Complex expressions not implemented yet")
         (Parser.init [mkToken ";" ";"])
  /\ is_SyntaxError (SyntaxError "Expected (, got Token(;, ';')") = true.
Proof.
  assert (H : type (Parser.current_token (Parser.init [mkToken ";" ";"]))
              <> "STRING") by discriminate.
  split; [exact H|]. split.
  - exact (proj1 C7_unsupported_expression _ H).
  - apply (proj1 (proj2 (proj2 C7_unsupported_expression))
             (Parser.init [mkToken ";" ";"]) (Parser.init [mkToken ";" ";"]) "(").
    reflexivity.
Defined.

(** C8: for every finite token sequence [Parser.parse] returns a module or
    raises: no loop exhausts its budget of one iteration per remaining
    token plus one.  Every iteration of the six loops (imports, functions,
    parameters, arguments, statements, import path) that returns has
    consumed at least one token; and once the sequence is exhausted the
    current token is the synthesized [EOF], on which every [expect] of
    something other than [EOF]'s own type and empty value raises, as do all
    the expectations the parser makes. *)
Theorem C8_parse_terminates :
  (forall toks : list Token,
      (exists m p', Parser.parse (Parser.init toks) = Ret m p')
      \/ (exists e p', Parser.parse (Parser.init toks) = Raise e p'))
  /\ (Parser.consumes Parser.module_imports_step
      /\ Parser.consumes Parser.module_functions_step
      /\ Parser.consumes Parser.function_params_step
      /\ Parser.consumes Parser.call_args_step
      /\ Parser.consumes Parser.function_body_step
      /\ Parser.consumes Parser.import_path_step)
  /\ (forall (p : Parser.t) (expected : string),
        Parser.wf p ->
        length (Parser.tokens p) <= Parser.pos p ->
        expected <> "EOF" -> expected <> EmptyString ->
        Parser.current_token p = Parser.EOF
        /\ exists msg, Parser.expect expected p = Raise (SyntaxError msg) p)
  /\ Forall (fun expected => expected <> "EOF" /\ expected <> EmptyString)
            Parser.expectations.
Proof.
  split.
  { intros toks. pose proof (Parser_parse_total toks) as H.
    destruct (Parser.parse (Parser.init toks)) as [m p'|e p'|];
      [left | right | contradiction]; eauto. }
  split.
  { repeat split.
    - apply (Parser_spec_consumes Parser.any).
      intros acc. apply spec_module_imports_step. exact I.
    - intros acc p Hp.
      pose proof (spec_parse_function (fun _ => True) I p (Parser_pre_wf p Hp)) as H.
      unfold Parser.module_functions_step, mbind, M_bind.
      destruct (Parser.parse_function p) as [f p1| |]; auto.
      destruct H as (_ & H & _). exact H.
    - apply (Parser_spec_consumes Parser.any).
      intros acc. apply spec_function_params_step. exact I.
    - apply (Parser_spec_consumes Parser.any).
      intros acc. apply spec_call_args_step. exact I.
    - apply (Parser_spec_consumes Parser.any).
      intros acc. apply spec_function_body_step. exact I.
    - apply (Parser_spec_consumes Parser.any).
      intros acc. apply spec_import_path_step. exact I. }
  split.
  { intros p expected Hwf Hlen H1 H2.
    destruct (Parser_expect_at_end p expected Hwf Hlen H1 H2) as [Hcur Hrun].
    split; [exact Hcur|]. eexists. exact Hrun. }
  unfold Parser.expectations.
  repeat (apply Forall_cons; split; [split; discriminate|]). apply Forall_nil.
  exact I.
Qed.

Lemma C8_parse_terminates_witness :
  Parser.wf (Parser.init [])
  /\ Parser.current_token (Parser.init []) = Parser.EOF
  /\ (exists msg,
        Parser.expect "module" (Parser.init [])
        = Raise (SyntaxError msg) (Parser.init []))
  /\ Parser.wf (Parser.init [mkToken "IDENT" "a"; mkToken ":" ":";
                              mkToken "IDENT" "int"; mkToken ")" ")"])
  /\ match Parser.function_params_step []
             (Parser.init [mkToken "IDENT" "a"; mkToken ":" ":";
                           mkToken "IDENT" "int"; mkToken ")" ")"]) with
     | Ret _ p' =>
         Parser.moved true
           (Parser.init [mkToken "IDENT" "a"; mkToken ":" ":";
                         mkToken "IDENT" "int"; mkToken ")" ")"]) p'
     | Raise _ _ => True
     | OutOfFuel => False
     end.
Proof.
  assert (Hwf : Parser.wf (Parser.init [])) by reflexivity.
  split; [exact Hwf|].
  destruct (proj1 (proj2 (proj2 C8_parse_terminates)) (Parser.init []) "module"
              Hwf ltac:(simpl; lia) ltac:(discriminate) ltac:(discriminate))
    as [Hcur Hrun].
  split; [exact Hcur|]. split; [exact Hrun|].
  assert (Hwf' : Parser.wf (Parser.init [mkToken "IDENT" "a"; mkToken ":" ":";
                                         mkToken "IDENT" "int"; mkToken ")" ")"]))
    by reflexivity.
  split; [exact Hwf'|].
  exact (proj1 (proj2 (proj2 (proj1 (proj2 C8_parse_terminates)))) [] _ Hwf').
Defined.

(** C9: wherever the lexer stands at the start of a run of word characters
    whose text is one of the four reserved words, and the run ends there,
    [get_next_token] returns the token whose type is the upper-cased word
    ([MODULE], [IMPORT], [FUNC], [RETURN]) and whose value is the word; and
    for every source text no token the driver collects has a reserved word
    as its value together with the type [IDENT]. *)
Theorem C9_keyword_precedence :
  (forall (l : Lexer.t) (k tl : string),
      Lexer.wf l ->
      k ∈ Lexer.KEYWORDS ->
      Lexer.rest l = k +:+ tl ->
      match shead tl with
      | Some c => Lexer.is_ident_char c = false
      | None => True
      end ->
      exists l',
        Lexer.get_next_token l = Ret (mkToken (upper k) k) l'
        /\ Lexer.wf l' /\ Lexer.source l' = Lexer.source l
        /\ Lexer.rest l' = tl)
  /\ (upper "module" = "MODULE" /\ upper "import" = "IMPORT"
      /\ upper "func" = "FUNC" /\ upper "return" = "RETURN")
  /\ (forall source : string,
        exists toks l,
          RereCompiler.tokenize source = Ret toks l
          /\ Forall (fun tok =>
                       value tok ∈ Lexer.KEYWORDS ->
                       type tok = upper (value tok) /\ type tok <> "IDENT")
                    toks).
Proof.
  split.
  { intros l k tl Hwf Hk Hrest Htl. rewrite (Lexer_wf_at l Hwf).
    unfold Lexer.rest in Hrest.
    assert (Hword : exists c w,
               k = String c w /\ Lexer.is_ident_start c = true
               /\ sforallb Lexer.is_ident_char w = true).
    { apply KEYWORDS_elem in Hk.
      destruct Hk as [-> | [-> | [-> | ->]]]; eexists _, _;
        (split; [reflexivity|]); split; reflexivity. }
    destruct Hword as (c & w & -> & Hc & Hw).
    pose proof (Lexer_word_at _ _ c w tl Hrest Hc Hw Htl) as Hrun.
    rewrite bool_decide_eq_true_2 in Hrun by exact Hk.
    eexists. split; [exact Hrun|]. split; [apply Lexer_at_wf|].
    split; [reflexivity|].
    unfold Lexer.rest. cbn [Lexer.at_ Lexer.pos Lexer.source].
    rewrite sdrop_add, Hrest.
    clear. generalize (String c w). intros s.
    induction s as [|d s IH]; [reflexivity | exact IH]. }
  split; [repeat split; reflexivity|].
  intros source. destruct (tokenize_total source) as (toks & l & Hrun & Hshapes).
  exists toks, l. split; [exact Hrun|].
  eapply Forall_impl; [exact Hshapes|]. apply token_shape_keyword.
Qed.

Lemma C9_keyword_precedence_witness :
  Lexer.wf (Lexer.at_ "a(func)" 2)
  /\ "func" ∈ Lexer.KEYWORDS
  /\ Lexer.rest (Lexer.at_ "a(func)" 2) = "func" +:+ ")"
  /\ exists l',
      Lexer.get_next_token (Lexer.at_ "a(func)" 2)
      = Ret (mkToken (upper "func") "func") l'
      /\ Lexer.wf l' /\ Lexer.source l' = "a(func)" /\ Lexer.rest l' = ")".
Proof.
  assert (Hk : "func" ∈ Lexer.KEYWORDS).
  { apply KEYWORDS_elem. right. right. left. reflexivity. }
  split; [reflexivity|]. split; [exact Hk|]. split; [reflexivity|].
  apply (proj1 C9_keyword_precedence (Lexer.at_ "a(func)" 2) "func" ")").
  - reflexivity.
  - exact Hk.
  - reflexivity.
  - reflexivity.
Defined.

(** C10: two generators that are both fresh (empty buffer, indentation
    zero) run [generate] on the same module with the same outcome, and when
    they return, [get_code] gives the same text for both. *)
Theorem C10_generation_deterministic
    (module : Module_) (g1 g2 : CodeGenerator.t) :
  CodeGenerator.fresh g1 ->
  CodeGenerator.fresh g2 ->
  detach (CodeGenerator.generate module g1)
  = detach (CodeGenerator.generate module g2)
  /\ forall g1' g2',
      CodeGenerator.generate module g1 = Ret tt g1' ->
      CodeGenerator.generate module g2 = Ret tt g2' ->
      CodeGenerator.get_code g1' = CodeGenerator.get_code g2'.
Proof.
  intros [Ho1 Hi1] [Ho2 Hi2].
  assert (Heq : g1 = g2).
  { destruct g1, g2. simpl in *. congruence. }
  subst g2. split; [reflexivity|].
  intros g1' g2' H1 H2. rewrite H1 in H2. injection H2 as ->. reflexivity.
Qed.

Lemma C10_generation_deterministic_witness :
  CodeGenerator.fresh CodeGenerator.init
  /\ CodeGenerator.fresh (CodeGenerator.mk [] 0)
  /\ detach (CodeGenerator.generate
               (mkModule "m" ["std.io"] [mkFunction "f" [] "void" []])
               CodeGenerator.init)
     = detach (CodeGenerator.generate
                 (mkModule "m" ["std.io"] [mkFunction "f" [] "void" []])
                 (CodeGenerator.mk [] 0)).
Proof.
  assert (H : CodeGenerator.fresh CodeGenerator.init) by (split; reflexivity).
  split; [exact H|]. split; [exact H|].
  exact (proj1 (C10_generation_deterministic
                  (mkModule "m" ["std.io"] [mkFunction "f" [] "void" []])
                  CodeGenerator.init (CodeGenerator.mk [] 0) H H)).
Defined.

(** * Further properties *)

(** ** Lexer: one call as a relation on the unconsumed text *)

Lemma Lexer_at_comment_at (src : string) (n : nat) :
  Lexer.at_comment (Lexer.at_ src n) = Scan.starts_comment (sdrop n src).
Proof.
  unfold Lexer.at_comment, Lexer.current_is. rewrite Lexer_current_at.
  cbn [Lexer.at_ Lexer.pos Lexer.source].
  destruct (sdrop n src) as [|c r] eqn:E; [reflexivity|].
  destruct (sdrop_cons_lt _ _ _ _ E) as [Hn Er].
  rewrite get_shead_sdrop, Er. cbn [shead Scan.starts_comment].
  destruct r as [|d r]; cbn [shead].
  - rewrite andb_false_r. reflexivity.
  - pose proof (length_sdrop src (n + 1)) as L. rewrite Er in L. simpl in L.
    destruct (Nat.ltb_spec (n + 1) (String.length src)); [|lia].
    rewrite andb_true_r. reflexivity.
Qed.

Lemma classify_space (c : ascii) :
  Scan.classify c = Scan.Space <-> isspace c = true.
Proof.
  unfold Scan.classify. destruct (isspace c); [tauto|].
  destruct (Lexer.is_ident_start c); [split; discriminate|].
  destruct (char_eqb c dquote); [split; discriminate|].
  case_bool_decide; split; discriminate.
Qed.

Lemma sdrop_drop_while (p : ascii -> bool) (src : string) (n : nat) :
  sdrop (n + String.length (take_while p (sdrop n src))) src
  = drop_while p (sdrop n src).
Proof. rewrite sdrop_add. apply sdrop_take_while. Qed.

(** [get_next_token] follows [Scan.scans]. *)
Lemma Lexer_get_next_token_loop_scans (fuel : nat) :
  forall (src : string) (n : nat),
    String.length src - n < fuel ->
    exists tok n',
      Lexer.get_next_token_loop fuel (Lexer.at_ src n)
      = Ret tok (Lexer.at_ src n')
      /\ Scan.scans (sdrop n src) tok (sdrop n' src)
      /\ n <= n'.
Proof.
  induction fuel as [|fuel IH]; intros src n Hf; [lia|].
  cbn [Lexer.get_next_token_loop]. rewrite Lexer_current_at.
  destruct (sdrop n src) as [|c r] eqn:E; simpl shead; cbv iota.
  { exists Lexer.EOF, n. split; [reflexivity|]. rewrite E.
    split; [constructor | lia]. }
  destruct (sdrop_cons_lt _ _ _ _ E) as [Hn Er].
  rewrite Lexer_at_comment_at, E.
  destruct (isspace c) eqn:Hsp.
  { erewrite bind_Ret by apply Lexer_skip_whitespace_at.
    pose proof (sdrop_drop_while isspace src n) as Hd. rewrite E in Hd |- *.
    pose proof (take_while_cons_length isspace c r Hsp) as Hl.
    destruct (IH src (n + String.length (take_while isspace (String c r))))
      as (tok & n' & Hrun & Hscan & Hle); [lia|].
    exists tok, n'. split; [exact Hrun|]. split; [|lia].
    apply Scan.scans_space; [apply classify_space; exact Hsp|].
    rewrite <- Hd. exact Hscan. }
  destruct (Scan.starts_comment (String c r)) eqn:Hc.
  { erewrite bind_Ret by apply Lexer_skip_comment_at.
    pose proof (sdrop_drop_while (fun c => negb (char_eqb c newline)) src n) as Hd.
    rewrite E in Hd |- *.
    destruct (IH src (n + String.length
                        (take_while (fun c => negb (char_eqb c newline))
                                    (String c r))))
      as (tok & n' & Hrun & Hscan & Hle).
    { assert (0 < String.length (take_while (fun c => negb (char_eqb c newline))
                                            (String c r))); [|lia].
      apply take_while_cons_length.
      destruct r as [|d r]; [discriminate|]. cbn in Hc.
      apply andb_true_iff in Hc as [Hc _]. apply Ascii.eqb_eq in Hc.
      subst c. reflexivity. }
    exists tok, n'. split; [exact Hrun|]. split; [|lia].
    apply Scan.scans_comment; [exact Hc|].
    unfold Scan.not_newline. rewrite <- Hd. exact Hscan. }
  fold (Lexer.is_ident_start c).
  destruct (Lexer.is_ident_start c) eqn:Hid.
  { erewrite bind_Ret by apply Lexer_get_identifier_at.
    pose proof (sdrop_drop_while Lexer.is_ident_char src n) as Hd.
    rewrite E in Hd |- *.
    pose proof (take_while_cons_length _ c r (ident_start_ident_char c Hid)) as Hl.
    exists (Scan.word_token (take_while Lexer.is_ident_char (String c r))),
           (n + String.length (take_while Lexer.is_ident_char (String c r))).
    split; [unfold Scan.word_token; case_bool_decide; reflexivity|].
    split; [|lia]. rewrite Hd.
    apply Scan.scans_word. unfold Scan.classify. rewrite Hsp, Hid. reflexivity. }
  destruct (char_eqb c dquote) eqn:Hq.
  { erewrite bind_Ret by apply Lexer_get_string_at.
    eexists _, _. split; [reflexivity|]. split; [|lia].
    rewrite Er.
    replace (sdrop _ src)
      with (stail (drop_while Scan.not_dquote r)).
    - apply Scan.scans_string. unfold Scan.classify. rewrite Hsp, Hid, Hq.
      reflexivity.
    - rewrite Nat.add_1_r with (n := n + 1 + _), sdrop_S. f_equal.
      pose proof (sdrop_drop_while Scan.not_dquote src (n + 1)) as Hd.
      rewrite Er in Hd. exact (eq_sym Hd). }
  case_bool_decide as Hp.
  { erewrite bind_Ret by apply Lexer_advance_at.
    eexists _, _. split; [reflexivity|]. split; [|lia]. rewrite Er.
    apply Scan.scans_punct. unfold Scan.classify.
    rewrite Hsp, Hid, Hq, bool_decide_eq_true_2 by exact Hp. reflexivity. }
  erewrite bind_Ret by apply Lexer_advance_at.
  destruct (IH src (n + 1)) as (tok & n' & Hrun & Hscan & Hle); [lia|].
  exists tok, n'. split; [exact Hrun|]. split; [|lia].
  apply Scan.scans_other; [| exact Hc | rewrite <- Er; exact Hscan].
  unfold Scan.classify.
  rewrite Hsp, Hid, Hq, bool_decide_eq_false_2 by exact Hp. reflexivity.
Qed.

Lemma starts_comment_class (c : ascii) (r : string) :
  Scan.starts_comment (String c r) = true -> Scan.classify c = Scan.Other.
Proof.
  destruct r as [|d r]; [discriminate|]. cbn.
  intros H. apply andb_true_iff in H as [H _]. apply Ascii.eqb_eq in H.
  subst c. reflexivity.
Qed.

(** One text, one token: the relation is a function of the unconsumed
    text. *)
Lemma scans_deterministic (r : string) (tok1 : Token) (r1 : string) :
  Scan.scans r tok1 r1 ->
  forall tok2 r2, Scan.scans r tok2 r2 -> tok1 = tok2 /\ r1 = r2.
Proof.
  induction 1 as [ | c r tok r' Hc _ IH | r tok r' Hc _ IH | c r Hc | c r Hc
                   | c r Hc | c r tok r' Hc Hn _ IH ];
    intros tok2 r2 H2; inversion H2; subst;
    try (match goal with
         | H : Scan.starts_comment (String _ _) = true |- _ =>
             pose proof (starts_comment_class _ _ H)
         end);
    try congruence; try discriminate; eauto.
Qed.

Lemma sforallb_take_while (p : ascii -> bool) (s : string) :
  sforallb p (take_while p s) = true.
Proof.
  induction s as [|c s IH]; simpl; [reflexivity|].
  destruct (p c) eqn:E; simpl; [rewrite E; exact IH | reflexivity].
Qed.

Lemma length_drop_while (p : ascii -> bool) (s : string) :
  String.length (drop_while p s) <= String.length s.
Proof.
  induction s as [|c s IH]; simpl; [lia|]. destruct (p c); simpl; lia.
Qed.

Lemma length_stail (s : string) : String.length (stail s) <= String.length s.
Proof. destruct s; simpl; lia. Qed.

Lemma drop_while_cons_length (p : ascii -> bool) (c : ascii) (s : string) :
  p c = true -> String.length (drop_while p (String c s)) < String.length (String c s).
Proof.
  intros H. simpl. rewrite H. pose proof (length_drop_while p s). lia.
Qed.

Lemma upper_keyword_not_EOF (w : string) :
  w ∈ Lexer.KEYWORDS -> upper w <> "EOF" /\ upper w <> "IDENT".
Proof.
  intros H. apply KEYWORDS_elem in H.
  destruct H as [-> | [-> | [-> | ->]]]; split; discriminate.
Qed.

(** What one call returns: the [EOF] token on exhausted text, and otherwise
    a token of the four kinds, having consumed at least one character. *)
Lemma scans_token (r : string) (tok : Token) (r' : string) :
  Scan.scans r tok r' ->
  (tok = Lexer.EOF /\ r' = EmptyString)
  \/ (Scan.token_ok tok /\ type tok <> "EOF"
      /\ String.length r' < String.length r).
Proof.
  induction 1 as [ | c r tok r' Hc _ IH | r tok r' Hc _ IH | c r Hc | c r Hc
                   | c r Hc | c r tok r' Hc Hn _ IH ].
  - left. split; reflexivity.
  - apply classify_space in Hc.
    pose proof (drop_while_cons_length isspace c r Hc).
    destruct IH as [IH | (Hok & Hne & Hlen)]; [left; exact IH|].
    right. split; [exact Hok|]. split; [exact Hne | lia].
  - pose proof (length_drop_while Scan.not_newline r).
    destruct IH as [IH | (Hok & Hne & Hlen)]; [left; exact IH|].
    right. split; [exact Hok|]. split; [exact Hne | lia].
  - right.
    assert (Hid : Lexer.is_ident_start c = true).
    { unfold Scan.classify in Hc. destruct (isspace c); [discriminate|].
      destruct (Lexer.is_ident_start c); [reflexivity|].
      destruct (char_eqb c dquote); [discriminate|].
      case_bool_decide; discriminate. }
    pose proof (ident_start_ident_char c Hid) as Hch.
    rewrite (take_while_cons _ c r Hch).
    pose proof (drop_while_cons_length _ c r Hch) as Hlen.
    set (w := String c (take_while Lexer.is_ident_char r)).
    assert (Hw : Scan.is_word w = true).
    { unfold w. cbn. rewrite Hid. apply sforallb_take_while. }
    unfold Scan.word_token. case_bool_decide as Hk.
    + split; [constructor; exact Hk|].
      split; [apply upper_keyword_not_EOF; exact Hk | exact Hlen].
    + split; [constructor; assumption|]. split; [discriminate | exact Hlen].
  - right. split; [constructor; apply sforallb_take_while|].
    split; [discriminate|].
    pose proof (length_drop_while Scan.not_dquote r).
    pose proof (length_stail (drop_while Scan.not_dquote r)). simpl. lia.
  - right.
    assert (Hp : c ∈ Lexer.PUNCTUATION).
    { unfold Scan.classify in Hc. destruct (isspace c); [discriminate|].
      destruct (Lexer.is_ident_start c); [discriminate|].
      destruct (char_eqb c dquote); [discriminate|].
      case_bool_decide; [assumption | discriminate]. }
    split; [constructor; exact Hp|]. split; [|simpl; lia].
    apply PUNCTUATION_elem in Hp. unfold Scan.punct_token. cbn [type].
    repeat destruct Hp as [Hp|Hp]; subst c; discriminate.
  - destruct IH as [[-> ->] | (Hok & Hne & Hlen)].
    + (* the skipped character was the last one *)
      left. split; reflexivity.
    + right. split; [exact Hok|]. split; [exact Hne | simpl; lia].
Qed.

(** Any two budgets that cover the unconsumed text give the same result. *)
Lemma Lexer_loop_fuel (f1 : nat) :
  forall (f2 : nat) (src : string) (n : nat),
    String.length src - n < f1 ->
    String.length src - n < f2 ->
    Lexer.get_next_token_loop f1 (Lexer.at_ src n)
    = Lexer.get_next_token_loop f2 (Lexer.at_ src n).
Proof.
  induction f1 as [|f1 IH]; intros f2 src n H1 H2; [lia|].
  destruct f2 as [|f2]; [lia|].
  cbn [Lexer.get_next_token_loop]. rewrite Lexer_current_at.
  destruct (sdrop n src) as [|c r] eqn:E; simpl shead; cbv iota; [reflexivity|].
  destruct (sdrop_cons_lt _ _ _ _ E) as [Hn Er].
  destruct (isspace c) eqn:Hsp.
  { erewrite !bind_Ret by apply Lexer_skip_whitespace_at.
    rewrite E. pose proof (take_while_cons_length isspace c r Hsp).
    apply IH; lia. }
  destruct (Lexer.at_comment (Lexer.at_ src n)) eqn:Hc.
  { erewrite !bind_Ret by apply Lexer_skip_comment_at.
    rewrite E. rewrite Lexer_at_comment_at, E in Hc.
    assert (0 < String.length (take_while (fun c => negb (char_eqb c newline))
                                          (String c r))).
    { apply take_while_cons_length.
      destruct r as [|d r]; [discriminate|]. cbn in Hc.
      apply andb_true_iff in Hc as [Hc _]. apply Ascii.eqb_eq in Hc.
      subst c. reflexivity. }
    apply IH; lia. }
  destruct (isalpha c || char_eqb c "_"); [reflexivity|].
  destruct (char_eqb c dquote); [reflexivity|].
  case_bool_decide; [reflexivity|].
  erewrite !bind_Ret by apply Lexer_advance_at.
  apply IH; lia.
Qed.

Lemma Lexer_get_next_token_fuel (fuel : nat) (src : string) (n : nat) :
  String.length src - n < fuel ->
  Lexer.get_next_token (Lexer.at_ src n)
  = Lexer.get_next_token_loop fuel (Lexer.at_ src n).
Proof.
  intros H. unfold Lexer.get_next_token.
  apply Lexer_loop_fuel; [apply Lexer_budget_at | exact H].
Qed.

(** A call that starts on blanks goes on from the end of the run of
    blanks. *)
Lemma Lexer_blank_run_at (src : string) (n : nat) :
  Lexer.get_next_token (Lexer.at_ src n)
  = Lexer.get_next_token
      (Lexer.at_ src (n + String.length (take_while isspace (sdrop n src)))).
Proof.
  destruct (sdrop n src) as [|c r] eqn:E.
  { simpl. rewrite Nat.add_0_r. reflexivity. }
  destruct (isspace c) eqn:Hsp.
  2:{ simpl. rewrite Hsp. simpl. rewrite Nat.add_0_r. reflexivity. }
  destruct (sdrop_cons_lt _ _ _ _ E) as [Hn Er].
  pose proof (take_while_cons_length isspace c r Hsp) as Hl.
  unfold Lexer.get_next_token at 1. unfold Lexer.budget.
  cbn [Lexer.get_next_token_loop].
  rewrite Lexer_current_at, E. simpl shead. cbv iota.
  rewrite Hsp. erewrite bind_Ret by apply Lexer_skip_whitespace_at.
  rewrite E. symmetry. apply Lexer_get_next_token_fuel.
  cbn [Lexer.at_ Lexer.source Lexer.pos]. lia.
Qed.

Lemma take_while_app_all (p : ascii -> bool) (a b : string) :
  sforallb p a = true ->
  take_while p (a +:+ b) = a +:+ take_while p b
  /\ drop_while p (a +:+ b) = drop_while p b.
Proof.
  induction a as [|c a IH]; rewrite ?append_cons, ?append_nil_l; simpl.
  - auto.
  - destruct (p c); simpl; [|discriminate]. intros H.
    destruct (IH H) as [-> ->]. split; reflexivity.
Qed.

Lemma length_append (a b : string) :
  String.length (a +:+ b) = String.length a + String.length b.
Proof.
  induction a as [|c a IH]; rewrite ?append_cons, ?append_nil_l; simpl; lia.
Qed.

Lemma sdrop_append (a b : string) : sdrop (String.length a) (a +:+ b) = b.
Proof.
  induction a as [|c a IH]; rewrite ?append_cons, ?append_nil_l; simpl; auto.
Qed.

Lemma sdrop_prefix (src : string) (n : nat) (a b : string) :
  sdrop n src = a +:+ b -> sdrop (n + String.length a) src = b.
Proof. intros H. rewrite sdrop_add, H. apply sdrop_append. Qed.

Lemma Lexer_scans_wf (l : Lexer.t) :
  Lexer.wf l ->
  exists tok l',
    Lexer.get_next_token l = Ret tok l'
    /\ Lexer.wf l' /\ Lexer.source l' = Lexer.source l
    /\ Lexer.pos l <= Lexer.pos l'
    /\ Scan.scans (Lexer.rest l) tok (Lexer.rest l').
Proof.
  intros Hwf. rewrite (Lexer_wf_at l Hwf).
  destruct (Lexer_get_next_token_loop_scans _ (Lexer.source l) (Lexer.pos l)
              (Lexer_budget_at _ _)) as (tok & n' & Hrun & Hscan & Hle).
  exists tok, (Lexer.at_ (Lexer.source l) n').
  split; [exact Hrun|]. split; [apply Lexer_at_wf|]. split; [reflexivity|].
  split; [exact Hle | exact Hscan].
Qed.

Lemma Lexer_rest_length (l : Lexer.t) :
  String.length (Lexer.rest l)
  = String.length (Lexer.source l) - Lexer.pos l.
Proof. apply length_sdrop. Qed.

Lemma Lexer_at_end (l : Lexer.t) :
  Lexer.wf l -> Lexer.rest l = EmptyString ->
  Lexer.current_char l = None /\ Lexer.get_next_token l = Ret Lexer.EOF l.
Proof.
  intros Hwf Hr. assert (Hc : Lexer.current_char l = None).
  { rewrite Hwf, get_shead_sdrop. unfold Lexer.rest in Hr. rewrite Hr.
    reflexivity. }
  split; [exact Hc|]. unfold Lexer.get_next_token, Lexer.budget.
  cbn [Lexer.get_next_token_loop]. rewrite Hc. reflexivity.
Qed.

(** X1: from every well-formed lexer [get_next_token] returns, leaving a
    well-formed lexer on the same source that has not moved backwards.  The
    token is [EOF] only when nothing is left, and then every later call
    returns [EOF] again without changing the lexer; any other token is a
    reserved word, an identifier, a quoted text or a punctuation character,
    and the lexer has advanced. *)
Theorem X1_get_next_token_returns (l : Lexer.t) :
  Lexer.wf l ->
  exists tok l',
    Lexer.get_next_token l = Ret tok l'
    /\ Lexer.wf l' /\ Lexer.source l' = Lexer.source l
    /\ Lexer.pos l <= Lexer.pos l'
    /\ (type tok = "EOF" ->
        tok = Lexer.EOF /\ Lexer.rest l' = EmptyString
        /\ Lexer.get_next_token l' = Ret Lexer.EOF l')
    /\ (type tok <> "EOF" ->
        Scan.token_ok tok /\ Lexer.pos l < Lexer.pos l').
Proof.
  intros Hwf.
  destruct (Lexer_scans_wf l Hwf) as (tok & l' & Hrun & Hwf' & Hsrc & Hle & Hscan).
  exists tok, l'. split; [exact Hrun|]. split; [exact Hwf'|].
  split; [exact Hsrc|]. split; [exact Hle|].
  pose proof (Lexer_rest_length l) as L. pose proof (Lexer_rest_length l') as L'.
  rewrite Hsrc in L'.
  destruct (scans_token _ _ _ Hscan) as [[-> Hr] | (Hok & Hne & Hlen)].
  - split; [|intros H; contradiction H; reflexivity].
    intros _. split; [reflexivity|]. split; [exact Hr|].
    apply Lexer_at_end; assumption.
  - split; [intros H; contradiction | intros _].
    split; [exact Hok | lia].
Qed.

Lemma X1_get_next_token_returns_witness :
  Lexer.wf (Lexer.init "f(x) ")
  /\ exists tok l',
      Lexer.get_next_token (Lexer.init "f(x) ") = Ret tok l'
      /\ Lexer.wf l' /\ Lexer.source l' = "f(x) "
      /\ 0 <= Lexer.pos l'.
Proof.
  assert (Hwf : Lexer.wf (Lexer.init "f(x) ")) by reflexivity.
  split; [exact Hwf|].
  destruct (X1_get_next_token_returns _ Hwf)
    as (tok & l' & H1 & H2 & H3 & H4 & _).
  exists tok, l'. repeat split; assumption.
Defined.

(** X2: the result of [get_next_token] depends only on the text not yet
    consumed: two well-formed lexers with the same unconsumed text return
    the same token and are left with the same unconsumed text. *)
Theorem X2_get_next_token_local (l1 l2 : Lexer.t) :
  Lexer.wf l1 -> Lexer.wf l2 ->
  Lexer.rest l1 = Lexer.rest l2 ->
  exists tok l1' l2',
    Lexer.get_next_token l1 = Ret tok l1'
    /\ Lexer.get_next_token l2 = Ret tok l2'
    /\ Lexer.rest l1' = Lexer.rest l2'.
Proof.
  intros Hwf1 Hwf2 Hrest.
  destruct (Lexer_scans_wf l1 Hwf1) as (tok1 & l1' & Hrun1 & _ & _ & _ & Hs1).
  destruct (Lexer_scans_wf l2 Hwf2) as (tok2 & l2' & Hrun2 & _ & _ & _ & Hs2).
  rewrite Hrest in Hs1.
  destruct (scans_deterministic _ _ _ Hs1 _ _ Hs2) as [<- Hr].
  exists tok1, l1', l2'. split; [exact Hrun1|]. split; [exact Hrun2 | exact Hr].
Qed.

Lemma X2_get_next_token_local_witness :
  Lexer.rest (Lexer.at_ "ab cd" 3) = Lexer.rest (Lexer.at_ "cd" 0)
  /\ exists tok l1' l2',
      Lexer.get_next_token (Lexer.at_ "ab cd" 3) = Ret tok l1'
      /\ Lexer.get_next_token (Lexer.at_ "cd" 0) = Ret tok l2'
      /\ Lexer.rest l1' = Lexer.rest l2'.
Proof.
  split; [reflexivity|].
  apply X2_get_next_token_local; reflexivity.
Defined.

(** ** Lexer: draining *)

Lemma tokenize_loop_tokens (fuel : nat) :
  forall (src : string) (n : nat) (acc : list Token),
    String.length src - n < fuel ->
    exists toks n',
      RereCompiler.tokenize_loop fuel acc (Lexer.at_ src n)
      = Ret (acc ++ toks) (Lexer.at_ src n')
      /\ Scan.tokens_of (sdrop n src) toks
      /\ sdrop n' src = EmptyString.
Proof.
  induction fuel as [|fuel IH]; intros src n acc Hf; [lia|].
  cbn [RereCompiler.tokenize_loop].
  destruct (Lexer_get_next_token_loop_scans _ src n (Lexer_budget_at _ _))
    as (tok & n1 & Hrun & Hscan & Hle).
  fold (Lexer.get_next_token (Lexer.at_ src n)) in Hrun.
  erewrite bind_Ret by exact Hrun.
  destruct (scans_token _ _ _ Hscan) as [[-> Hr] | (Hok & Hne & Hlen)].
  - exists [], n1. rewrite app_nil_r. split; [reflexivity|].
    split; [|exact Hr]. eapply Scan.tokens_done; [exact Hscan | reflexivity].
  - rewrite (proj2 (String.eqb_neq _ _) Hne).
    rewrite !length_sdrop in Hlen.
    destruct (IH src n1 (acc ++ [tok])) as (toks & n' & Hrun' & Htoks & Hend);
      [lia|].
    exists (tok :: toks), n'. rewrite Hrun', <- app_assoc.
    split; [reflexivity|]. split; [|exact Hend].
    eapply Scan.tokens_more; eauto.
Qed.

Lemma tokenize_tokens (src : string) :
  exists toks l,
    RereCompiler.tokenize src = Ret toks l
    /\ Scan.tokens_of src toks
    /\ Lexer.wf l /\ Lexer.source l = src /\ Lexer.rest l = EmptyString.
Proof.
  unfold RereCompiler.tokenize. rewrite Lexer_init_at.
  destruct (tokenize_loop_tokens (S (String.length src)) src 0 [])
    as (toks & n' & Hrun & Htoks & Hend); [lia|].
  exists toks, (Lexer.at_ src n'). split; [exact Hrun|].
  split; [exact Htoks|]. split; [apply Lexer_at_wf|].
  split; [reflexivity | exact Hend].
Qed.

Lemma tokens_of_deterministic (r : string) (toks1 : list Token) :
  Scan.tokens_of r toks1 ->
  forall toks2, Scan.tokens_of r toks2 -> toks1 = toks2.
Proof.
  induction 1 as [r tok r' Hs He | r tok r' toks Hs Hne _ IH];
    intros toks2 H2; inversion H2 as [r0 tok0 r0' Hs0 He0 | r0 tok0 r0' toks0 Hs0 Hne0 H0];
    subst; destruct (scans_deterministic _ _ _ Hs _ _ Hs0) as [<- <-];
    try contradiction; [reflexivity|].
  f_equal. apply IH. exact H0.
Qed.

Lemma tokens_of_ok (r : string) (toks : list Token) :
  Scan.tokens_of r toks -> Forall Scan.token_ok toks.
Proof.
  induction 1 as [r tok r' Hs He | r tok r' toks Hs Hne _ IH]; constructor;
    [|exact IH].
  destruct (scans_token _ _ _ Hs) as [[-> _] | (Hok & _)];
    [contradiction Hne; reflexivity | exact Hok].
Qed.

(** X3: for every source text the driver's loop ends, with the whole text
    consumed, and every token it has collected is a reserved word with the
    upper-cased word as type, an identifier that is not a reserved word, a
    quoted text with no double quote inside, or one punctuation character;
    no collected token has type [EOF]. *)
Theorem X3_tokenize_inventory (source : string) :
  exists toks l,
    RereCompiler.tokenize source = Ret toks l
    /\ Lexer.rest l = EmptyString
    /\ Lexer.current_char l = None
    /\ Forall (fun tok => Scan.token_ok tok /\ type tok <> "EOF") toks.
Proof.
  destruct (tokenize_tokens source) as (toks & l & Hrun & Htoks & Hwf & _ & Hr).
  exists toks, l. split; [exact Hrun|]. split; [exact Hr|].
  split; [apply Lexer_at_end; assumption|].
  clear Hrun. induction Htoks as [r tok r' Hs He | r tok r' toks Hs Hne _ IH];
    constructor; [|exact IH].
  split; [|exact Hne].
  destruct (scans_token _ _ _ Hs) as [[-> _] | (Hok & _)];
    [contradiction Hne; reflexivity | exact Hok].
Qed.

(** X4: leading blanks are not significant: when the unconsumed text begins
    with blank characters, [get_next_token] gives what it gives from the
    position after them. *)
Theorem X4_blanks_skipped (l : Lexer.t) (ws tl : string) :
  Lexer.wf l ->
  Lexer.rest l = ws +:+ tl ->
  sforallb isspace ws = true ->
  Lexer.get_next_token l
  = Lexer.get_next_token
      (Lexer.at_ (Lexer.source l) (Lexer.pos l + String.length ws)).
Proof.
  intros Hwf Hrest Hws. rewrite (Lexer_wf_at l Hwf) at 1.
  unfold Lexer.rest in Hrest.
  rewrite Lexer_blank_run_at, Hrest.
  rewrite (Lexer_blank_run_at _ (Lexer.pos l + String.length ws)).
  rewrite (sdrop_prefix _ _ _ _ Hrest).
  destruct (take_while_app_all isspace ws tl Hws) as [-> _].
  rewrite length_append, Nat.add_assoc. reflexivity.
Qed.

Lemma X4_blanks_skipped_witness :
  Lexer.rest (Lexer.init "  x") = "  " +:+ "x"
  /\ Lexer.get_next_token (Lexer.init "  x")
     = Lexer.get_next_token (Lexer.at_ "  x" 2).
Proof.
  split; [reflexivity|].
  exact (X4_blanks_skipped (Lexer.init "  x") "  " "x"
           eq_refl eq_refl eq_refl).
Defined.

(** X5: a line comment yields no token: when the unconsumed text is two
    slashes, then text without a line feed, then a line feed or the end,
    [get_next_token] gives what it gives from the position after the
    comment's text (the line feed itself is left for the next step). *)
Theorem X5_comment_skipped (l : Lexer.t) (text tl : string) :
  Lexer.wf l ->
  Lexer.rest l = "//" +:+ text +:+ tl ->
  sforallb Scan.not_newline text = true ->
  Scan.ends_line tl ->
  Lexer.get_next_token l
  = Lexer.get_next_token
      (Lexer.at_ (Lexer.source l) (Lexer.pos l + 2 + String.length text)).
Proof.
  intros Hwf Hrest Htext Htl. rewrite (Lexer_wf_at l Hwf) at 1.
  unfold Lexer.rest in Hrest.
  set (src := Lexer.source l) in *. set (n := Lexer.pos l) in *.
  assert (Hrun : take_while Scan.not_newline (sdrop n src) = "//" +:+ text).
  { rewrite Hrest. rewrite <- append_assoc.
    apply (take_while_app Scan.not_newline ("//" +:+ text) tl).
    - rewrite !append_cons, append_nil_l. cbn. exact Htext.
    - unfold Scan.ends_line in Htl. destruct (shead tl); [|exact I].
      subst a. reflexivity. }
  pose proof (length_sdrop src n) as L. rewrite Hrest in L.
  rewrite !append_cons, append_nil_l in L. simpl in L.
  unfold Lexer.get_next_token at 1. unfold Lexer.budget.
  cbn [Lexer.get_next_token_loop]. rewrite Lexer_current_at, Hrest.
  rewrite !append_cons, append_nil_l. simpl shead. cbv iota.
  change (isspace "/") with false. cbv iota.
  rewrite Lexer_at_comment_at, Hrest, !append_cons, append_nil_l.
  cbn [Scan.starts_comment]. change (char_eqb "/" "/") with true.
  cbn [andb].
  erewrite bind_Ret by apply Lexer_skip_comment_at.
  fold Scan.not_newline. rewrite Hrun.
  rewrite append_cons, append_cons, append_nil_l.
  cbn [String.length].
  replace (n + S (S (String.length text))) with (n + 2 + String.length text)
    by lia.
  symmetry. apply Lexer_get_next_token_fuel.
  cbn [Lexer.at_ Lexer.source Lexer.pos]. fold src n. lia.
Qed.

Lemma X5_comment_skipped_witness :
  Lexer.rest (Lexer.at_ "a //b" 2) = "//" +:+ "b" +:+ EmptyString
  /\ Lexer.get_next_token (Lexer.at_ "a //b" 2)
     = Lexer.get_next_token (Lexer.at_ "a //b" 5).
Proof.
  split; [reflexivity|].
  exact (X5_comment_skipped (Lexer.at_ "a //b" 2) "b" EmptyString
           eq_refl eq_refl eq_refl I).
Defined.





(** X7: a terminated string literal: when the unconsumed text is a double
    quote, a body without double quote, and a closing double quote,
    [get_next_token] returns the [STRING] token whose value is the body
    between double quotes, whatever the body holds (blanks, line feeds,
    backslashes, slashes), and the lexer stands right after the closing
    quote. *)
Theorem X7_string_literal (l : Lexer.t) (body tl : string) :
  Lexer.wf l ->
  Lexer.rest l = String dquote (body +:+ String dquote tl) ->
  sforallb Scan.not_dquote body = true ->
  exists l',
    Lexer.get_next_token l = Ret (Scan.string_token body) l'
    /\ Lexer.wf l' /\ Lexer.source l' = Lexer.source l
    /\ Lexer.pos l' = Lexer.pos l + String.length body + 2
    /\ Lexer.rest l' = tl.
Proof.
  intros Hwf Hrest Hbody. unfold Lexer.rest in Hrest.
  destruct (sdrop_cons_lt _ _ _ _ Hrest) as [Hn Er].
  destruct (take_while_app Scan.not_dquote body (String dquote tl) Hbody)
    as [Htake Hdrop]; [reflexivity|].
  exists (Lexer.at_ (Lexer.source l) (Lexer.pos l + String.length body + 2)).
  split.
  { rewrite (Lexer_wf_at l Hwf) at 1.
    unfold Lexer.get_next_token, Lexer.budget.
    cbn [Lexer.get_next_token_loop]. rewrite Lexer_current_at, Hrest.
    simpl shead. cbv iota. change (isspace dquote) with false. cbv iota.
    rewrite Lexer_at_comment_at, Hrest.
    assert (Hcom : Scan.starts_comment
                     (String dquote (body +:+ String dquote tl)) = false).
    { destruct (body +:+ String dquote tl); reflexivity. }
    rewrite Hcom.
    change (isalpha dquote || char_eqb dquote "_") with false. cbv iota.
    change (char_eqb dquote dquote) with true. cbv iota.
    erewrite bind_Ret by apply Lexer_get_string_at.
    rewrite Er. fold Scan.not_dquote. rewrite Htake.
    replace (Lexer.pos l + 1 + String.length body + 1)
      with (Lexer.pos l + String.length body + 2) by lia.
    reflexivity. }
  split; [apply Lexer_at_wf|]. split; [reflexivity|]. split; [reflexivity|].
  unfold Lexer.rest. cbn [Lexer.at_ Lexer.source Lexer.pos].
  replace (Lexer.pos l + String.length body + 2)
    with ((Lexer.pos l + 1) + (String.length body + 1)) by lia.
  rewrite sdrop_add, Er.
  replace (String.length body + 1)
    with (String.length (body +:+ String dquote EmptyString)).
  - replace (body +:+ String dquote tl)
      with ((body +:+ String dquote EmptyString) +:+ tl).
    + apply sdrop_append.
    + rewrite append_assoc. reflexivity.
  - rewrite length_append. reflexivity.
Qed.

Lemma X7_string_literal_witness :
  Lexer.rest (Lexer.at_ Examples.print_two 27)
  = String dquote ("hi" +:+ String dquote (", " +:+ Examples.q +:+ "x" +:+ Examples.q +:+ "); }"))
  /\ exists l',
      Lexer.get_next_token (Lexer.at_ Examples.print_two 27)
      = Ret (Scan.string_token "hi") l'
      /\ Lexer.pos l' = 31.
Proof.
  split; [reflexivity|].
  destruct (X7_string_literal (Lexer.at_ Examples.print_two 27) "hi"
              (", " +:+ Examples.q +:+ "x" +:+ Examples.q +:+ "); }")
              eq_refl eq_refl eq_refl) as (l' & H1 & _ & _ & H2 & _).
  exists l'. split; [exact H1 | exact H2].
Defined.

(** X8: a word that is not one of the four reserved words is an identifier:
    when the unconsumed text begins with a word (a letter or underscore,
    then letters, digits and underscores) that is not reserved and the word
    ends there, [get_next_token] returns the [IDENT] token with the word as
    value and stands right after it.  Reserved words are matched exactly:
    in another case, or with a character added, they are identifiers. *)
Theorem X8_identifier (l : Lexer.t) (w tl : string) :
  Lexer.wf l ->
  Lexer.rest l = w +:+ tl ->
  Scan.is_word w = true ->
  w ∉ Lexer.KEYWORDS ->
  Scan.ends_word tl ->
  exists l',
    Lexer.get_next_token l = Ret (mkToken "IDENT" w) l'
    /\ Lexer.wf l' /\ Lexer.source l' = Lexer.source l
    /\ Lexer.pos l' = Lexer.pos l + String.length w
    /\ Lexer.rest l' = tl.
Proof.
  intros Hwf Hrest Hw Hk Htl. unfold Lexer.rest in Hrest.
  destruct w as [|c w]; [discriminate|]. cbn in Hw.
  apply andb_true_iff in Hw as [Hc Hw].
  pose proof (Lexer_word_at _ _ c w tl Hrest Hc Hw Htl) as Hrun.
  rewrite bool_decide_eq_false_2 in Hrun by exact Hk.
  rewrite <- (Lexer_wf_at l Hwf) in Hrun.
  eexists. split; [exact Hrun|]. split; [apply Lexer_at_wf|].
  split; [reflexivity|]. split; [reflexivity|].
  unfold Lexer.rest. cbn [Lexer.at_ Lexer.source Lexer.pos].
  apply sdrop_prefix. exact Hrest.
Qed.

Lemma not_keyword (w : string) :
  w <> "module" -> w <> "import" -> w <> "func" -> w <> "return" ->
  w ∉ Lexer.KEYWORDS.
Proof. intros H1 H2 H3 H4 H. apply KEYWORDS_elem in H. tauto. Qed.

Lemma X8_identifier_witness :
  ("Func" ∉ Lexer.KEYWORDS)
  /\ Lexer.rest (Lexer.init "Func()") = "Func" +:+ "()"
  /\ exists l',
      Lexer.get_next_token (Lexer.init "Func()") = Ret (mkToken "IDENT" "Func") l'
      /\ Lexer.rest l' = "()".
Proof.
  assert (Hk : "Func" ∉ Lexer.KEYWORDS) by (apply not_keyword; discriminate).
  split; [exact Hk|]. split; [reflexivity|].
  destruct (X8_identifier (Lexer.init "Func()") "Func" "()"
              eq_refl eq_refl eq_refl Hk eq_refl) as (l' & H1 & _ & _ & _ & H2).
  exists l'. split; [exact H1 | exact H2].
Defined.

Lemma scans_drop_blanks (r : string) (tok : Token) (r' : string) :
  Scan.scans r tok r' -> Scan.scans (drop_while isspace r) tok r'.
Proof.
  intros H. destruct r as [|c r]; [exact H|].
  destruct (isspace c) eqn:Hsp; [|simpl; rewrite Hsp; exact H].
  pose proof (proj2 (classify_space c) Hsp) as Hc.
  inversion H; subst;
    try (match goal with
         | H : Scan.starts_comment (String _ _) = true |- _ =>
             pose proof (starts_comment_class _ _ H)
         end);
    try congruence.
Qed.

Lemma scans_blank_prefix (ws r : string) (tok : Token) (r' : string) :
  sforallb isspace ws = true ->
  Scan.scans r tok r' -> Scan.scans (ws +:+ r) tok r'.
Proof.
  intros Hws H. destruct ws as [|c ws]; [exact H|].
  rewrite append_cons. pose proof Hws as Hall. cbn in Hws.
  apply andb_true_iff in Hws as [Hc _].
  apply Scan.scans_space; [apply classify_space; exact Hc|].
  rewrite <- append_cons.
  destruct (take_while_app_all isspace (String c ws) r Hall) as [_ ->].
  apply scans_drop_blanks. exact H.
Qed.

(** X9: blanks in front of a source text change nothing for the driver: the
    tokens collected from the text with blank characters prepended are the
    tokens collected from the text itself. *)
Theorem X9_tokenize_leading_blanks (ws source : string) :
  sforallb isspace ws = true ->
  detach (RereCompiler.tokenize (ws +:+ source))
  = detach (RereCompiler.tokenize source).
Proof.
  intros Hws.
  destruct (tokenize_tokens (ws +:+ source)) as (toks1 & l1 & -> & H1 & _).
  destruct (tokenize_tokens source) as (toks2 & l2 & -> & H2 & _).
  simpl. f_equal. eapply tokens_of_deterministic; [exact H1|].
  inversion H2 as [r tok r' Hs He | r tok r' toks Hs Hne Hrest]; subst.
  - eapply Scan.tokens_done; [apply scans_blank_prefix; eassumption | exact He].
  - eapply Scan.tokens_more; [apply scans_blank_prefix; eassumption | exact Hne
                             | exact Hrest].
Qed.

Lemma X9_tokenize_leading_blanks_witness :
  detach (RereCompiler.tokenize ("  " +:+ "module m;"))
  = detach (RereCompiler.tokenize "module m;").
Proof. exact (X9_tokenize_leading_blanks "  " "module m;" eq_refl). Defined.

(** ** What the parser raises *)

Lemma raises_ret {St A} (E : exn -> St -> Prop) (a : A) :
  raises_only E (mret a : M St A).
Proof. intros s e s' H. discriminate H. Qed.

Lemma raises_bind {St A B} (E : exn -> St -> Prop)
    (m : M St A) (k : A -> M St B) :
  raises_only E m -> (forall a, raises_only E (k a)) ->
  raises_only E (m ≫= k).
Proof.
  intros Hm Hk s e s' H. unfold mbind, M_bind in H.
  destruct (m s) as [a s1|e1 s1|] eqn:Em; [| |discriminate H].
  - exact (Hk a s1 e s' H).
  - injection H as <- <-. exact (Hm s e1 s1 Em).
Qed.

Lemma raises_while {St A} (E : exn -> St -> Prop) (cond : St -> bool)
    (body : A -> M St A) :
  (forall acc, raises_only E (body acc)) ->
  forall fuel acc, raises_only E (while_ fuel cond body acc).
Proof.
  intros Hbody. induction fuel as [|fuel IH]; intros acc s e s' H;
    cbn [while_] in H; destruct (cond s); try discriminate H.
  destruct (body acc s) as [acc1 s1|e1 s1|] eqn:Eb; [| |discriminate H].
  - exact (IH acc1 s1 e s' H).
  - injection H as <- <-. exact (Hbody acc s e1 s1 Eb).
Qed.

Lemma raises_cond {St A} (E : exn -> St -> Prop) (c : St -> bool)
    (m1 m2 : M St A) :
  raises_only E m1 -> raises_only E m2 ->
  raises_only E (fun s => if c s then m1 s else m2 s).
Proof. intros H1 H2 s e s' H. destruct (c s); eauto. Qed.

Lemma raises_loop {A} (cond : Parser.t -> bool) (body : A -> M Parser.t A)
    (acc : A) :
  (forall acc, raises_only ParseError.raised (body acc)) ->
  raises_only ParseError.raised (Parser.loop cond body acc).
Proof.
  intros Hbody p e p' H. unfold Parser.loop in H.
  exact (raises_while _ cond body Hbody _ acc p e p' H).
Qed.

Lemma raises_expect (expected : string) :
  expected ∈ Parser.expectations ->
  raises_only ParseError.raised (Parser.expect expected).
Proof.
  intros Hin p e p' H. unfold Parser.expect in H.
  destruct (String.eqb_spec (type (Parser.current_token p)) expected) as [|Ht];
    [discriminate H|].
  destruct (String.eqb_spec (value (Parser.current_token p)) expected) as [|Hv];
    [discriminate H|].
  cbn in H. injection H as <- <-. constructor; assumption.
Qed.

Ltac raises_step :=
  first
    [ apply raises_ret
    | apply raises_expect; unfold Parser.expectations;
      rewrite !elem_of_cons; tauto
    | apply raises_bind; [|intros ?]
    | apply raises_loop; intros ? ].

Lemma raises_parse_expression :
  raises_only ParseError.raised Parser.parse_expression.
Proof.
  intros p e p' H. unfold Parser.parse_expression in H.
  destruct (String.eqb_spec (type (Parser.current_token p)) "STRING") as [|Ht].
  - assert (Hs : raises_only ParseError.raised
                   (tok ← Parser.expect "STRING";
                    mret (StringLiteral (value tok))))
      by repeat raises_step.
    exact (Hs p e p' H).
  - injection H as <- <-. constructor. exact Ht.
Qed.

Lemma raises_parse_return : raises_only ParseError.raised Parser.parse_return.
Proof.
  unfold Parser.parse_return.
  repeat first [apply raises_parse_expression | raises_step].
Qed.

Lemma raises_skip_comma : raises_only ParseError.raised Parser.skip_comma.
Proof.
  unfold Parser.skip_comma. apply raises_cond; [|intros p e p' H; discriminate H].
  repeat raises_step.
Qed.

Lemma raises_parse_call : raises_only ParseError.raised Parser.parse_call.
Proof.
  unfold Parser.parse_call, Parser.call_args_step.
  repeat first [apply raises_parse_expression | apply raises_skip_comma
               | raises_step].
Qed.

Lemma raises_parse_statement :
  raises_only ParseError.raised Parser.parse_statement.
Proof.
  intros p e p' H. unfold Parser.parse_statement in H.
  destruct (Parser.value_is "return" p) eqn:Er;
    [exact (raises_parse_return p e p' H)|].
  destruct (_ && _); [exact (raises_parse_call p e p' H)|].
  injection H as <- <-. apply ParseError.raised_unexpected.
  apply String.eqb_neq. exact Er.
Qed.

Lemma raises_parse_function :
  raises_only ParseError.raised Parser.parse_function.
Proof.
  unfold Parser.parse_function, Parser.function_params_step,
    Parser.function_body_step.
  repeat first [apply raises_parse_statement | apply raises_skip_comma
               | raises_step].
  unfold Parser.parse_returns. apply raises_cond; [|intros p e p' H; discriminate H].
  repeat raises_step.
Qed.

Lemma raises_parse_import : raises_only ParseError.raised Parser.parse_import.
Proof.
  unfold Parser.parse_import, Parser.import_path_step. repeat raises_step.
Qed.

Lemma raises_parse_module : raises_only ParseError.raised Parser.parse_module.
Proof.
  unfold Parser.parse_module, Parser.module_imports_step,
    Parser.module_functions_step.
  repeat first [apply raises_parse_import | apply raises_parse_function
               | raises_step].
Qed.















(** ** Parser: the token sequences of the grammar are accepted *)

Lemma zip_init (toks : list Token) : Parser.init toks = Grammar.zip [] toks.
Proof. destruct toks; reflexivity. Qed.

Lemma zip_advance (pre : list Token) (tok : Token) (post : list Token) :
  Parser.advance (Grammar.zip pre (tok :: post))
  = Ret tt (Grammar.zip (pre ++ [tok]) post).
Proof.
  unfold Parser.advance, Grammar.zip. cbn [Parser.tokens Parser.pos].
  rewrite <- (app_assoc pre [tok] post), (length_app pre [tok]).
  cbn [app length]. f_equal. f_equal.
  rewrite length_app. cbn [length]. unfold Parser.token_at.
  destruct post as [|tok2 post]; cbn [length];
    match goal with
    | |- context [?a <? ?b] => destruct (Nat.ltb_spec a b) as [Hlt|Hge]
    end; try lia; [reflexivity|].
  rewrite lookup_app_r by lia.
  replace (length pre + 1 - length pre) with 1 by lia. reflexivity.
Qed.

Lemma zip_expect (pre : list Token) (tok : Token) (post : list Token)
    (expected : string) :
  type tok = expected \/ value tok = expected ->
  Parser.expect expected (Grammar.zip pre (tok :: post))
  = Ret tok (Grammar.zip (pre ++ [tok]) post).
Proof.
  intros H. unfold Parser.expect. cbn [Grammar.zip Parser.current_token].
  fold (Grammar.zip pre (tok :: post)).
  replace (_ || _) with true.
  - erewrite bind_Ret by apply zip_advance. reflexivity.
  - symmetry. apply orb_true_iff.
    destruct H as [H|H]; [left | right]; apply String.eqb_eq; exact H.
Qed.

Lemma zip_value_is (pre post : list Token) (v : string) :
  Parser.value_is v (Grammar.zip pre post)
  = String.eqb (Grammar.next_value post) v.
Proof. reflexivity. Qed.

Lemma zip_value_is_not (pre post : list Token) (v : string) :
  Parser.value_is_not v (Grammar.zip pre post)
  = negb (String.eqb (Grammar.next_value post) v).
Proof. reflexivity. Qed.

Lemma zip_budget (pre post : list Token) :
  Parser.budget (Grammar.zip pre post) = S (length post).
Proof.
  unfold Parser.budget, Grammar.zip. cbn [Parser.tokens Parser.pos].
  rewrite length_app. f_equal. lia.
Qed.

Lemma run_sym (pre post : list Token) (s : string) :
  Parser.expect s (Grammar.zip pre (Grammar.sym s :: post))
  = Ret (Grammar.sym s) (Grammar.zip (pre ++ [Grammar.sym s]) post).
Proof. apply zip_expect. left. reflexivity. Qed.

Lemma run_ident (pre post : list Token) (name : string) :
  Parser.expect "IDENT" (Grammar.zip pre (Grammar.ident name :: post))
  = Ret (Grammar.ident name) (Grammar.zip (pre ++ [Grammar.ident name]) post).
Proof. apply zip_expect. left. reflexivity. Qed.

Lemma run_keyword (pre post : list Token) (w : string) :
  Parser.expect w (Grammar.zip pre (Grammar.keyword w :: post))
  = Ret (Grammar.keyword w) (Grammar.zip (pre ++ [Grammar.keyword w]) post).
Proof. apply zip_expect. right. reflexivity. Qed.

Lemma run_parse_expression (pre post : list Token) (e : Expression) :
  Parser.parse_expression (Grammar.zip pre (Grammar.literal e :: post))
  = Ret e (Grammar.zip (pre ++ [Grammar.literal e]) post).
Proof.
  unfold Parser.parse_expression. cbn [Grammar.zip Parser.current_token].
  fold (Grammar.zip pre (Grammar.literal e :: post)).
  change (String.eqb (type (Grammar.literal e)) "STRING") with true. cbv iota.
  erewrite bind_Ret by (apply zip_expect; left; reflexivity).
  destruct e. reflexivity.
Qed.

Lemma run_skip_comma (pre post : list Token) (c : bool) :
  Grammar.next_value post <> "," ->
  Parser.skip_comma (Grammar.zip pre (Grammar.comma c ++ post))
  = Ret tt (Grammar.zip (pre ++ Grammar.comma c) post).
Proof.
  intros Hnext. unfold Parser.skip_comma. rewrite zip_value_is.
  destruct c; cbn [Grammar.comma app].
  - change (String.eqb (Grammar.next_value (Grammar.sym "," :: post)) ",")
      with true. cbv iota.
    erewrite bind_Ret by apply run_sym. reflexivity.
  - rewrite (proj2 (String.eqb_neq _ _) Hnext), app_nil_r. reflexivity.
Qed.

Lemma zip_peek (pre : list Token) (t1 t2 : Token) (post : list Token) :
  Parser.peek (Grammar.zip pre (t1 :: t2 :: post)) = t2.
Proof.
  unfold Parser.peek, Grammar.zip. cbn [Parser.tokens Parser.pos].
  rewrite length_app. cbn [length].
  destruct (Nat.ltb_spec (length pre + 1) (length pre + S (S (length post))));
    [|lia].
  unfold Parser.token_at. rewrite lookup_app_r by lia.
  replace (length pre + 1 - length pre) with 1 by lia. reflexivity.
Qed.

Ltac zip_norm := repeat first [rewrite <- app_assoc | progress cbn [app]].

Ltac run H := erewrite bind_Ret by (apply H); zip_norm.

Lemma args_next (cargs : list (Expression * bool)) (post : list Token) :
  Forall (fun a => Grammar.plain (expr_value a.1)) cargs ->
  Grammar.next_value (Grammar.args_tokens cargs ++ Grammar.sym ")" :: post)
  <> ","
  /\ (cargs <> [] ->
      Grammar.next_value (Grammar.args_tokens cargs ++ Grammar.sym ")" :: post)
      <> ")").
Proof.
  intros H. destruct cargs as [|[e c] cargs].
  - split; [discriminate | congruence].
  - inversion H as [|? ? (H1 & H2 & _) _]; subst. cbn in *. auto.
Qed.

Lemma length_args_tokens (cargs : list (Expression * bool)) :
  length cargs <= length (Grammar.args_tokens cargs).
Proof.
  induction cargs as [|[e c] cargs IH]; cbn [Grammar.args_tokens length];
    [lia|].
  rewrite length_app. lia.
Qed.

Lemma run_args (cargs : list (Expression * bool)) :
  forall (fuel : nat) (pre post : list Token) (acc : list Expression),
    length cargs < fuel ->
    Forall (fun a => Grammar.plain (expr_value a.1)) cargs ->
    while_ fuel (Parser.value_is_not ")") Parser.call_args_step acc
      (Grammar.zip pre (Grammar.args_tokens cargs ++ Grammar.sym ")" :: post))
    = Ret (acc ++ map fst cargs)
        (Grammar.zip (pre ++ Grammar.args_tokens cargs)
           (Grammar.sym ")" :: post)).
Proof.
  induction cargs as [|[e c] cargs IH]; intros fuel pre post acc Hf Hpl;
    (destruct fuel as [|fuel]; [cbn in Hf; lia|]); cbn [while_].
  - rewrite zip_value_is_not. cbn. rewrite !app_nil_r. reflexivity.
  - rewrite zip_value_is_not.
    destruct (args_next _ post Hpl) as [_ Hne].
    rewrite (proj2 (String.eqb_neq _ _) (Hne ltac:(discriminate))).
    cbn [negb Grammar.args_tokens app].
    inversion Hpl as [|? ? _ Hpl']; subst.
    unfold Parser.call_args_step at 1.
    run run_parse_expression.
    erewrite bind_Ret
      by (apply run_skip_comma; apply (args_next cargs post Hpl')).
    unfold mret, M_ret. cbn [length] in Hf.
    rewrite IH by (assumption || lia).
    cbn [map fst]. zip_norm. reflexivity.
Qed.

Lemma run_call (pre post : list Token) (f : string)
    (cargs : list (Expression * bool)) :
  Forall (fun a => Grammar.plain (expr_value a.1)) cargs ->
  Parser.parse_call
    (Grammar.zip pre (Grammar.statement_tokens (Grammar.SCall f cargs) ++ post))
  = Ret (Call f (map fst cargs))
      (Grammar.zip (pre ++ Grammar.statement_tokens (Grammar.SCall f cargs))
         post).
Proof.
  intros Hpl. unfold Parser.parse_call. cbn [Grammar.statement_tokens].
  zip_norm.
  run run_ident. run run_sym.
  erewrite bind_Ret; cycle 1.
  { unfold Parser.loop. rewrite zip_budget. apply run_args; [|exact Hpl].
    pose proof (length_args_tokens cargs). rewrite length_app. lia. }
  zip_norm. run run_sym. run run_sym. reflexivity.
Qed.

Lemma run_return (pre post : list Token) (e : Expression) :
  Parser.parse_return
    (Grammar.zip pre (Grammar.statement_tokens (Grammar.SReturn e) ++ post))
  = Ret (Return e)
      (Grammar.zip (pre ++ Grammar.statement_tokens (Grammar.SReturn e)) post).
Proof.
  unfold Parser.parse_return. cbn [Grammar.statement_tokens app].
  run run_keyword. run run_parse_expression. run run_sym. reflexivity.
Qed.

Lemma run_statement (pre post : list Token) (s : Grammar.statement) :
  Grammar.statement_plain s ->
  Parser.parse_statement (Grammar.zip pre (Grammar.statement_tokens s ++ post))
  = Ret (Grammar.statement_ast s)
      (Grammar.zip (pre ++ Grammar.statement_tokens s) post).
Proof.
  intros Hpl. unfold Parser.parse_statement. destruct s as [f cargs | e].
  - destruct Hpl as [(_ & _ & _ & Hf) Hargs].
    rewrite zip_value_is. cbn [Grammar.statement_tokens app].
    change (Grammar.next_value
              (Grammar.ident f :: Grammar.sym "("
               :: (Grammar.args_tokens cargs
                   ++ [Grammar.sym ")"; Grammar.sym ";"]) ++ post))
      with f.
    rewrite (proj2 (String.eqb_neq _ _) Hf).
    cbn [Grammar.zip Parser.current_token].
    fold (Grammar.zip pre
            (Grammar.ident f :: Grammar.sym "("
             :: (Grammar.args_tokens cargs
                 ++ [Grammar.sym ")"; Grammar.sym ";"]) ++ post)).
    rewrite zip_peek.
    change (String.eqb (type (Grammar.ident f)) "IDENT"
            && String.eqb (value (Grammar.sym "(")) "(") with true.
    cbv iota. apply (run_call pre post f cargs Hargs).
  - rewrite zip_value_is.
    change (String.eqb
              (Grammar.next_value
                 (Grammar.statement_tokens (Grammar.SReturn e) ++ post))
              "return") with true.
    cbv iota. apply run_return.
Qed.

Lemma statement_next (s : Grammar.statement) (post : list Token) :
  Grammar.statement_plain s ->
  Grammar.next_value (Grammar.statement_tokens s ++ post) <> "}".
Proof.
  destruct s as [f cargs | e]; cbn.
  - intros [(_ & _ & H & _) _]. exact H.
  - intros _. discriminate.
Qed.

Lemma length_body_tokens (stmts : list Grammar.statement) :
  length stmts <= length (Grammar.body_tokens stmts).
Proof.
  unfold Grammar.body_tokens.
  induction stmts as [|s stmts IH]; cbn [map concat length]; [lia|].
  rewrite length_app. destruct s; cbn [Grammar.statement_tokens length]; lia.
Qed.

Lemma run_body (stmts : list Grammar.statement) :
  forall (fuel : nat) (pre post : list Token) (acc : list Statement),
    length stmts < fuel ->
    Forall Grammar.statement_plain stmts ->
    while_ fuel (Parser.value_is_not "}") Parser.function_body_step acc
      (Grammar.zip pre (Grammar.body_tokens stmts ++ Grammar.sym "}" :: post))
    = Ret (acc ++ map Grammar.statement_ast stmts)
        (Grammar.zip (pre ++ Grammar.body_tokens stmts)
           (Grammar.sym "}" :: post)).
Proof.
  unfold Grammar.body_tokens.
  induction stmts as [|s stmts IH]; intros fuel pre post acc Hf Hpl;
    (destruct fuel as [|fuel]; [cbn in Hf; lia|]); cbn [while_ map concat].
  - rewrite zip_value_is_not. cbn. rewrite !app_nil_r. reflexivity.
  - inversion Hpl as [|? ? Hs Hpl']; subst.
    rewrite zip_value_is_not, <- app_assoc.
    rewrite (proj2 (String.eqb_neq _ _) (statement_next s _ Hs)).
    cbn [negb]. unfold Parser.function_body_step at 1.
    erewrite bind_Ret by (apply run_statement; exact Hs).
    unfold mret, M_ret. cbn [length] in Hf.
    rewrite IH by (assumption || lia).
    cbn [map]. rewrite <- !app_assoc. reflexivity.
Qed.

Lemma params_next (ps : list (string * string * bool)) (post : list Token) :
  Forall (fun p => Grammar.plain p.1.1) ps ->
  Grammar.next_value (Grammar.params_tokens ps ++ Grammar.sym ")" :: post)
  <> ","
  /\ (ps <> [] ->
      Grammar.next_value (Grammar.params_tokens ps ++ Grammar.sym ")" :: post)
      <> ")").
Proof.
  intros H. destruct ps as [|[[n t] c] ps].
  - split; [discriminate | congruence].
  - inversion H as [|? ? (H1 & H2 & _) _]; subst. cbn in *. auto.
Qed.

Lemma length_params_tokens (ps : list (string * string * bool)) :
  length ps <= length (Grammar.params_tokens ps).
Proof.
  induction ps as [|[[n t] c] ps IH]; cbn [Grammar.params_tokens length];
    [lia|].
  rewrite length_app. lia.
Qed.

Lemma run_params (ps : list (string * string * bool)) :
  forall (fuel : nat) (pre post : list Token) (acc : list (string * string)),
    length ps < fuel ->
    Forall (fun p => Grammar.plain p.1.1) ps ->
    while_ fuel (Parser.value_is_not ")") Parser.function_params_step acc
      (Grammar.zip pre (Grammar.params_tokens ps ++ Grammar.sym ")" :: post))
    = Ret (acc ++ map fst ps)
        (Grammar.zip (pre ++ Grammar.params_tokens ps)
           (Grammar.sym ")" :: post)).
Proof.
  induction ps as [|[[n t] c] ps IH]; intros fuel pre post acc Hf Hpl;
    (destruct fuel as [|fuel]; [cbn in Hf; lia|]); cbn [while_].
  - rewrite zip_value_is_not. cbn. rewrite !app_nil_r. reflexivity.
  - rewrite zip_value_is_not.
    destruct (params_next _ post Hpl) as [_ Hne].
    rewrite (proj2 (String.eqb_neq _ _) (Hne ltac:(discriminate))).
    cbn [negb Grammar.params_tokens app].
    inversion Hpl as [|? ? _ Hpl']; subst.
    unfold Parser.function_params_step at 1.
    run run_ident. run run_sym. run run_ident.
    erewrite bind_Ret
      by (apply run_skip_comma; apply (params_next ps post Hpl')).
    unfold mret, M_ret. cbn [length] in Hf.
    rewrite IH by (assumption || lia).
    cbn [map fst]. zip_norm. reflexivity.
Qed.

Lemma run_returns (pre post : list Token) (r : option string) :
  Parser.parse_returns
    (Grammar.zip pre (Grammar.returns_tokens r ++ Grammar.sym "{" :: post))
  = Ret (default "void" r)
      (Grammar.zip (pre ++ Grammar.returns_tokens r) (Grammar.sym "{" :: post)).
Proof.
  unfold Parser.parse_returns. rewrite zip_value_is.
  destruct r as [t|]; cbn [Grammar.returns_tokens app].
  - change (String.eqb (Grammar.next_value _) "->") with true. cbv iota.
    run run_sym. run run_ident. reflexivity.
  - change (String.eqb (Grammar.next_value _) "->") with false. cbv iota.
    rewrite app_nil_r. reflexivity.
Qed.

Lemma run_function (pre post : list Token) (f : Grammar.function) :
  Grammar.function_plain f ->
  Parser.parse_function (Grammar.zip pre (Grammar.function_tokens f ++ post))
  = Ret (Grammar.function_ast f)
      (Grammar.zip (pre ++ Grammar.function_tokens f) post).
Proof.
  intros [Hparams Hbody]. unfold Parser.parse_function, Grammar.function_tokens.
  zip_norm.
  run run_keyword. run run_ident. run run_sym.
  erewrite bind_Ret; cycle 1.
  { unfold Parser.loop. rewrite zip_budget. apply run_params; [|exact Hparams].
    pose proof (length_params_tokens (Grammar.f_params f)).
    rewrite length_app. lia. }
  zip_norm. run run_sym. run run_returns. run run_sym.
  erewrite bind_Ret; cycle 1.
  { unfold Parser.loop. rewrite zip_budget. apply run_body; [|exact Hbody].
    pose proof (length_body_tokens (Grammar.f_body f)).
    rewrite length_app. lia. }
  zip_norm. run run_sym. reflexivity.
Qed.

Lemma run_path (more : list string) :
  forall (fuel : nat) (pre post : list Token) (acc : list string),
    length more < fuel ->
    while_ fuel (Parser.value_is ".") Parser.import_path_step acc
      (Grammar.zip pre (Grammar.path_tokens more ++ Grammar.sym ";" :: post))
    = Ret (acc ++ more)
        (Grammar.zip (pre ++ Grammar.path_tokens more)
           (Grammar.sym ";" :: post)).
Proof.
  unfold Grammar.path_tokens.
  induction more as [|n more IH]; intros fuel pre post acc Hf;
    (destruct fuel as [|fuel]; [cbn in Hf; lia|]); cbn [while_ map concat].
  - rewrite zip_value_is. cbn. rewrite !app_nil_r. reflexivity.
  - rewrite zip_value_is. cbn [app].
    change (String.eqb (Grammar.next_value _) ".") with true. cbv iota.
    unfold Parser.import_path_step at 1.
    run run_sym. run run_ident.
    unfold mret, M_ret. cbn [length] in Hf. rewrite IH by lia.
    zip_norm. reflexivity.
Qed.

Lemma length_path_tokens (more : list string) :
  length more <= length (Grammar.path_tokens more).
Proof.
  unfold Grammar.path_tokens.
  induction more as [|n more IH]; cbn [map concat length app]; lia.
Qed.

Lemma run_import (pre post : list Token) (i : string * list string) :
  Parser.parse_import (Grammar.zip pre (Grammar.import_tokens i ++ post))
  = Ret (Grammar.import_ast i)
      (Grammar.zip (pre ++ Grammar.import_tokens i) post).
Proof.
  destruct i as [first more].
  unfold Parser.parse_import, Grammar.import_tokens. cbn [fst snd]. zip_norm.
  run run_keyword. run run_ident.
  erewrite bind_Ret; cycle 1.
  { unfold Parser.loop. rewrite zip_budget. apply run_path.
    pose proof (length_path_tokens more). rewrite length_app. lia. }
  zip_norm. run run_sym. reflexivity.
Qed.

Lemma length_concat_tokens {A} (f : A -> list Token) (l : list A) :
  (forall x, 0 < length (f x)) -> length l <= length (concat (map f l)).
Proof.
  intros Hpos. induction l as [|x l IH]; cbn [map concat length]; [lia|].
  rewrite length_app. specialize (Hpos x). lia.
Qed.

Lemma run_imports (imps : list (string * list string)) :
  forall (fuel : nat) (pre post : list Token) (acc : list string),
    length imps < fuel ->
    Grammar.next_value post <> "import" ->
    while_ fuel (Parser.value_is "import") Parser.module_imports_step acc
      (Grammar.zip pre (concat (map Grammar.import_tokens imps) ++ post))
    = Ret (acc ++ map Grammar.import_ast imps)
        (Grammar.zip (pre ++ concat (map Grammar.import_tokens imps)) post).
Proof.
  induction imps as [|i imps IH]; intros fuel pre post acc Hf Hnext;
    (destruct fuel as [|fuel]; [cbn in Hf; lia|]); cbn [while_ map concat].
  - rewrite zip_value_is. cbn [app].
    rewrite (proj2 (String.eqb_neq _ _) Hnext), !app_nil_r. reflexivity.
  - rewrite zip_value_is, <- app_assoc.
    change (String.eqb (Grammar.next_value _) "import") with true. cbv iota.
    unfold Parser.module_imports_step at 1.
    erewrite bind_Ret by apply run_import.
    unfold mret, M_ret. cbn [length] in Hf. rewrite IH by (assumption || lia).
    cbn [map]. rewrite <- !app_assoc. reflexivity.
Qed.

Lemma run_functions (funcs : list Grammar.function) :
  forall (fuel : nat) (pre post : list Token) (acc : list Function_),
    length funcs < fuel ->
    Forall Grammar.function_plain funcs ->
    Grammar.next_value post <> "func" ->
    while_ fuel (Parser.value_is "func") Parser.module_functions_step acc
      (Grammar.zip pre (concat (map Grammar.function_tokens funcs) ++ post))
    = Ret (acc ++ map Grammar.function_ast funcs)
        (Grammar.zip (pre ++ concat (map Grammar.function_tokens funcs)) post).
Proof.
  induction funcs as [|f funcs IH]; intros fuel pre post acc Hf Hpl Hnext;
    (destruct fuel as [|fuel]; [cbn in Hf; lia|]); cbn [while_ map concat].
  - rewrite zip_value_is. cbn [app].
    rewrite (proj2 (String.eqb_neq _ _) Hnext), !app_nil_r. reflexivity.
  - inversion Hpl as [|? ? Hfp Hpl']; subst.
    rewrite zip_value_is, <- app_assoc.
    change (String.eqb (Grammar.next_value _) "func") with true. cbv iota.
    unfold Parser.module_functions_step at 1.
    erewrite bind_Ret by (apply run_function; exact Hfp).
    unfold mret, M_ret. cbn [length] in Hf. rewrite IH by (assumption || lia).
    cbn [map]. rewrite <- !app_assoc. reflexivity.
Qed.

(** X11: the parser accepts the token sequences of the grammar and builds
    the corresponding tree.  For every module written as tokens (the module
    header, imports with dotted paths, functions with parameters, an
    optional arrow and return type, and bodies of calls and returns of
    string literals), with a comma present or absent after each parameter
    and each argument as one likes, [parse] returns the module, its imports
    joined with dots and each function with return type [void] unless
    declared.  Whatever tokens follow the module are left unread, provided
    they start neither an import nor a function.  The only requirement on
    the names is that parameter names, called function names and literal
    values are none of [)], [,], [}] and [return]. *)
Theorem X11_grammar_accepted (m : Grammar.module) (rest : list Token) :
  Forall Grammar.function_plain (Grammar.m_functions m) ->
  Grammar.trailing rest ->
  Parser.parse (Parser.init (Grammar.module_tokens m ++ rest))
  = Ret (Grammar.module_ast m) (Grammar.zip (Grammar.module_tokens m) rest).
Proof.
  intros Hpl [Himp Hfunc]. rewrite zip_init.
  unfold Parser.parse, Parser.parse_module, Grammar.module_tokens.
  zip_norm.
  run run_keyword. run run_ident. run run_sym.
  erewrite bind_Ret; cycle 1.
  { unfold Parser.loop. rewrite zip_budget. apply run_imports.
    - pose proof (length_concat_tokens Grammar.import_tokens
                    (Grammar.m_imports m)) as H.
      rewrite length_app. specialize (H ltac:(intros [? ?]; cbn; lia)). lia.
    - destruct (Grammar.m_functions m) as [|f funcs]; [exact Himp|].
      discriminate. }
  erewrite bind_Ret; cycle 1.
  { unfold Parser.loop. rewrite zip_budget.
    apply run_functions; [|exact Hpl|exact Hfunc].
    pose proof (length_concat_tokens Grammar.function_tokens
                  (Grammar.m_functions m)) as H.
    rewrite length_app. specialize (H ltac:(intros ?; cbn; lia)). lia. }
  zip_norm. reflexivity.
Qed.

Lemma X11_grammar_accepted_witness :
  Parser.parse
    (Parser.init
       (Grammar.module_tokens
          (Grammar.mkmodule "m" [("std", ["io"])]
             [Grammar.mkfunction "f" [("a", "int", false); ("b", "word", true)]
                None
                [Grammar.SCall "print"
                   [(StringLiteral Examples.q, false);
                    (StringLiteral Examples.q, true)];
                 Grammar.SReturn (StringLiteral Examples.q)]])
        ++ [Grammar.sym ";"]))
  = Ret (mkModule "m" ["std.io"]
           [mkFunction "f" [("a", "int"); ("b", "word")] "void"
              [Call "print" [StringLiteral Examples.q; StringLiteral Examples.q];
               Return (StringLiteral Examples.q)]])
        (Grammar.zip
           (Grammar.module_tokens
              (Grammar.mkmodule "m" [("std", ["io"])]
                 [Grammar.mkfunction "f"
                    [("a", "int", false); ("b", "word", true)] None
                    [Grammar.SCall "print"
                       [(StringLiteral Examples.q, false);
                        (StringLiteral Examples.q, true)];
                     Grammar.SReturn (StringLiteral Examples.q)]]))
           [Grammar.sym ";"]).
Proof.
  apply (X11_grammar_accepted
           (Grammar.mkmodule "m" [("std", ["io"])]
              [Grammar.mkfunction "f" [("a", "int", false); ("b", "word", true)]
                 None
                 [Grammar.SCall "print"
                    [(StringLiteral Examples.q, false);
                     (StringLiteral Examples.q, true)];
                  Grammar.SReturn (StringLiteral Examples.q)]])
           [Grammar.sym ";"]).
  - repeat first [ apply Forall_cons_2 | apply Forall_nil_2 | split
                 | exact I | discriminate ].
  - split; discriminate.
Defined.

(** ** Code generator: the lines it writes *)

Lemma statement_text_none (stmt : Statement) :
  Layout.statement_text stmt = None <-> stmt = CodeGenerator.empty_print.
Proof.
  destruct stmt as [func args | v]; cbn; [|split; discriminate].
  destruct (String.eqb_spec func "print") as [->|Hne].
  - destruct args; split; (discriminate || reflexivity).
  - split; [discriminate|]. unfold CodeGenerator.empty_print. congruence.
Qed.

Lemma generate_statement_text (stmt : Statement) (g : CodeGenerator.t) :
  CodeGenerator.generate_statement stmt g
  = match Layout.statement_text stmt with
    | Some text =>
        Ret tt (CodeGenerator.mk
                  (CodeGenerator.output g
                   ++ [Layout.pad (CodeGenerator.indent g) text])
                  (CodeGenerator.indent g))
    | None => Raise CodeGenerator.index_error g
    end.
Proof.
  destruct stmt as [func args | [v]]; cbn; [|reflexivity].
  unfold CodeGenerator.generate_call.
  destruct (String.eqb func "print"); [|reflexivity].
  destruct args; reflexivity.
Qed.

(** The statement loop: every text before the first argument-less [print]
    is written, at the current depth. *)
Lemma generate_body_lines (stmts : list Statement) :
  forall g : CodeGenerator.t,
    let g' :=
      CodeGenerator.mk
        (CodeGenerator.output g
         ++ map (Layout.pad (CodeGenerator.indent g)) (Layout.body_texts stmts))
        (CodeGenerator.indent g) in
    for_ stmts CodeGenerator.generate_statement g
    = if bool_decide (CodeGenerator.empty_print ∈ stmts)
      then Raise CodeGenerator.index_error g'
      else Ret tt g'.
Proof.
  induction stmts as [|stmt stmts IH]; intros g; cbn zeta.
  - cbn. rewrite app_nil_r. destruct g.
    rewrite bool_decide_eq_false_2 by apply not_elem_of_nil. reflexivity.
  - cbn [for_ Layout.body_texts]. unfold mbind, M_bind.
    rewrite generate_statement_text.
    destruct (Layout.statement_text stmt) as [text|] eqn:E.
    + assert (Hne : stmt <> CodeGenerator.empty_print).
      { intros H. apply statement_text_none in H. congruence. }
      rewrite IH. cbn [CodeGenerator.output CodeGenerator.indent map].
      rewrite <- app_assoc. cbn [app].
      assert (Hiff : CodeGenerator.empty_print ∈ stmt :: stmts
                     <-> CodeGenerator.empty_print ∈ stmts).
      { rewrite elem_of_cons. split; [intros [H|H]; congruence | auto]. }
      rewrite (bool_decide_ext _ _ Hiff). reflexivity.
    + apply statement_text_none in E. subst stmt.
      rewrite bool_decide_eq_true_2 by apply list_elem_of_here.
      cbn. rewrite app_nil_r. destruct g. reflexivity.
Qed.

Lemma generate_function_lines (func : Function_) (g : CodeGenerator.t) :
  let d := CodeGenerator.indent g in
  CodeGenerator.generate_function func g
  = if bool_decide (CodeGenerator.empty_print ∈ body func)
    then Raise CodeGenerator.index_error
           (CodeGenerator.mk
              (CodeGenerator.output g
               ++ Layout.pad d (Layout.signature func)
                  :: map (Layout.pad (d + 1)) (Layout.body_texts (body func)))
              (d + 1))
    else Ret tt
           (CodeGenerator.mk
              (CodeGenerator.output g ++ Layout.function_lines d func) d).
Proof.
  intros d. unfold CodeGenerator.generate_function, mbind, M_bind.
  cbn [CodeGenerator.emit CodeGenerator.add_indent].
  cbn [CodeGenerator.output CodeGenerator.indent].
  rewrite generate_body_lines. cbv zeta.
  cbn [CodeGenerator.output CodeGenerator.indent].
  fold d. fold (Layout.signature func). fold (Layout.pad d (Layout.signature func)).
  case_bool_decide.
  - rewrite <- app_assoc. reflexivity.
  - unfold CodeGenerator.emit. cbn [CodeGenerator.output CodeGenerator.indent].
    unfold Layout.function_lines.
    replace (d + 1 + -1)%Z with d by lia.
    rewrite <- !app_assoc. reflexivity.
Qed.

Lemma generate_functions_lines (funcs : list Function_) :
  forall g : CodeGenerator.t,
    let d := CodeGenerator.indent g in
    for_ funcs CodeGenerator.generate_function g
    = if bool_decide
           (Forall (fun f => CodeGenerator.empty_print ∉ body f) funcs)
      then Ret tt
             (CodeGenerator.mk
                (CodeGenerator.output g
                 ++ concat (map (Layout.function_lines d) funcs)) d)
      else Raise CodeGenerator.index_error
             (CodeGenerator.mk
                (CodeGenerator.output g ++ Layout.partial_lines d funcs)
                (d + 1)).
Proof.
  induction funcs as [|f funcs IH]; intros g d.
  - cbn. rewrite app_nil_r. destruct g. reflexivity.
  - cbn [for_ map concat Layout.partial_lines]. unfold mbind, M_bind.
    rewrite generate_function_lines. fold d.
    destruct (decide (CodeGenerator.empty_print ∈ body f)) as [Hin|Hnin].
    + rewrite (bool_decide_eq_true_2 _ Hin).
      rewrite bool_decide_eq_false_2; [reflexivity|].
      intros H. apply Forall_cons_1 in H as [H _]. contradiction.
    + rewrite (bool_decide_eq_false_2 _ Hnin), IH.
      cbn [CodeGenerator.output CodeGenerator.indent].
      assert (Hiff : Forall (fun f => CodeGenerator.empty_print ∉ body f)
                       (f :: funcs)
                     <-> Forall (fun f => CodeGenerator.empty_print ∉ body f)
                           funcs).
      { rewrite Forall_cons. tauto. }
      rewrite (bool_decide_ext _ _ Hiff).
      case_bool_decide; rewrite <- !app_assoc; reflexivity.
Qed.

Lemma generate_imports_lines (imps : list string) :
  forall g : CodeGenerator.t,
    for_ imps
      (fun imp =>
         if String.eqb imp "std.io"
         then CodeGenerator.emit "void std_io_print(const char* msg);"
         else mret tt) g
    = Ret tt
        (CodeGenerator.mk
           (CodeGenerator.output g
            ++ map (fun _ => Layout.pad (CodeGenerator.indent g)
                               Layout.declaration)
                 (filter (fun imp => imp = "std.io") imps))
           (CodeGenerator.indent g)).
Proof.
  induction imps as [|imp imps IH]; intros g; cbn [for_].
  - cbn. rewrite app_nil_r. destruct g. reflexivity.
  - unfold mbind, M_bind. rewrite filter_cons.
    destruct (String.eqb_spec imp "std.io") as [->|Hne].
    + rewrite decide_True by reflexivity. cbn [CodeGenerator.emit].
      rewrite IH. cbn [CodeGenerator.output CodeGenerator.indent map].
      rewrite <- app_assoc. reflexivity.
    + rewrite decide_False by exact Hne. cbn. apply IH.
Qed.

Lemma generate_lines (module : Module_) (g : CodeGenerator.t) :
  let d := CodeGenerator.indent g in
  CodeGenerator.generate module g
  = if bool_decide (Layout.lowers module)
    then Ret tt
           (CodeGenerator.mk
              (CodeGenerator.output g ++ Layout.module_lines d module) d)
    else Raise CodeGenerator.index_error
           (CodeGenerator.mk
              (CodeGenerator.output g
               ++ Layout.header_lines d (imports module)
               ++ Layout.partial_lines d (functions module))
              (d + 1)).
Proof.
  intros d. unfold CodeGenerator.generate, mbind, M_bind.
  cbn [CodeGenerator.emit]. cbn [CodeGenerator.output CodeGenerator.indent].
  rewrite generate_imports_lines.
  cbn [CodeGenerator.output CodeGenerator.indent].
  rewrite generate_functions_lines. cbv zeta.
  cbn [CodeGenerator.output CodeGenerator.indent]. fold d.
  unfold Layout.lowers, Layout.module_lines, Layout.header_lines, Layout.pad.
  case_bool_decide; rewrite <- !app_assoc; reflexivity.
Qed.

(** X12: on a module no body of which holds a [print] call without
    arguments, [generate] returns, and what it adds to the buffer is, at
    the generator's depth: the two include lines and a blank line; one
    declaration line for every import equal to [std.io] (none for any
    other import, one each for repeated ones) and a blank line; then for
    each function, in order, its signature, one line per statement one
    level deeper, the closing brace and a blank line.  The earlier lines of
    the buffer and the depth are unchanged. *)
Theorem X12_generate_layout (module : Module_) (g : CodeGenerator.t) :
  Layout.lowers module ->
  CodeGenerator.generate module g
  = Ret tt
      (CodeGenerator.mk
         (CodeGenerator.output g
          ++ Layout.module_lines (CodeGenerator.indent g) module)
         (CodeGenerator.indent g)).
Proof.
  intros H. rewrite generate_lines. cbv zeta.
  rewrite bool_decide_eq_true_2 by exact H. reflexivity.
Qed.

Lemma X12_generate_layout_witness :
  CodeGenerator.generate
    (mkModule "m" ["std.io"; "x"; "std.io"]
       [mkFunction "f" [("a", "word")] "ptr"
          [Call "g" [StringLiteral "1"; StringLiteral "2"]]])
    CodeGenerator.init
  = Ret tt
      (CodeGenerator.mk
         ["#include <stdio.h>"; "#include <stdlib.h>"; EmptyString;
          "void std_io_print(const char* msg);";
          "void std_io_print(const char* msg);"; EmptyString;
          "void* f(size_t a) {"; "    g(1, 2);"; "}"; EmptyString] 0).
Proof.
  apply (X12_generate_layout
           (mkModule "m" ["std.io"; "x"; "std.io"]
              [mkFunction "f" [("a", "word")] "ptr"
                 [Call "g" [StringLiteral "1"; StringLiteral "2"]]])
           CodeGenerator.init).
  apply Forall_cons_2; [|apply Forall_nil_2].
  cbn. rewrite not_elem_of_cons. split; [discriminate | apply not_elem_of_nil].
Defined.

(** X13: when some body holds a [print] call without arguments, [generate]
    raises the index error and leaves the generator changed: the buffer has
    gained the header, the lines of the functions before the failing one,
    and that function's signature and the statements before the call; and
    the depth is left one level deeper, so a later use of the same
    generator indents by four more spaces. *)
Theorem X13_generate_failure_state (module : Module_) (g : CodeGenerator.t) :
  ~ Layout.lowers module ->
  CodeGenerator.generate module g
  = Raise (IndexError "list index out of range")
      (CodeGenerator.mk
         (CodeGenerator.output g
          ++ Layout.header_lines (CodeGenerator.indent g) (imports module)
          ++ Layout.partial_lines (CodeGenerator.indent g) (functions module))
         (CodeGenerator.indent g + 1)).
Proof.
  intros H. rewrite generate_lines. cbv zeta.
  rewrite bool_decide_eq_false_2 by exact H. reflexivity.
Qed.

Lemma X13_generate_failure_state_witness :
  CodeGenerator.generate
    (mkModule "m" []
       [mkFunction "f" [] "void"
          [Return (StringLiteral "0"); Call "print" []; Call "g" []]])
    CodeGenerator.init
  = Raise (IndexError "list index out of range")
      (CodeGenerator.mk
         ["#include <stdio.h>"; "#include <stdlib.h>"; EmptyString; EmptyString;
          "void f() {"; "    return 0;"] 1).
Proof.
  apply (X13_generate_failure_state
           (mkModule "m" []
              [mkFunction "f" [] "void"
                 [Return (StringLiteral "0"); Call "print" []; Call "g" []]])
           CodeGenerator.init).
  intros H. apply Forall_cons_1 in H as [H _]. apply H. cbn.
  apply list_elem_of_further, list_elem_of_here.
Defined.

(** X14: a generator used for two modules in turn accumulates: when both
    lower, the buffer ends with the lines of the first module followed by
    the lines of the second, header included both times. *)
Theorem X14_generate_twice (m1 m2 : Module_) (g : CodeGenerator.t) :
  Layout.lowers m1 ->
  Layout.lowers m2 ->
  (CodeGenerator.generate m1;; CodeGenerator.generate m2) g
  = Ret tt
      (CodeGenerator.mk
         (CodeGenerator.output g
          ++ Layout.module_lines (CodeGenerator.indent g) m1
          ++ Layout.module_lines (CodeGenerator.indent g) m2)
         (CodeGenerator.indent g)).
Proof.
  intros H1 H2. unfold mbind, M_bind. rewrite generate_lines. cbv zeta.
  rewrite bool_decide_eq_true_2 by exact H1.
  rewrite generate_lines. cbv zeta.
  rewrite bool_decide_eq_true_2 by exact H2.
  cbn [CodeGenerator.output CodeGenerator.indent].
  rewrite <- app_assoc. reflexivity.
Qed.

Lemma lowers_no_functions (name : string) (imps : list string) :
  Layout.lowers (mkModule name imps []).
Proof. apply Forall_nil_2. Qed.

Lemma X14_generate_twice_witness :
  (CodeGenerator.generate (mkModule "a" [] []);;
   CodeGenerator.generate (mkModule "b" ["std.io"] [])) CodeGenerator.init
  = Ret tt
      (CodeGenerator.mk
         ["#include <stdio.h>"; "#include <stdlib.h>"; EmptyString; EmptyString;
          "#include <stdio.h>"; "#include <stdlib.h>"; EmptyString;
          "void std_io_print(const char* msg);"; EmptyString] 0).
Proof.
  exact (X14_generate_twice (mkModule "a" [] []) (mkModule "b" ["std.io"] [])
           CodeGenerator.init (lowers_no_functions _ _)
           (lowers_no_functions _ _)).
Defined.

(** ** Driver *)

(** X15: for every source text the pipeline of [compile_to_c] ends.  It
    returns the C text exactly when the source parses to a module in which
    every [print] call has an argument, and the text is then the module's
    lines joined by line feeds.  Otherwise it raises: one of the parser's
    three errors when parsing fails, and the index error when the module
    parses but holds a [print] call without arguments. *)
Theorem X15_compile_to_c_outcomes (source : string) :
  match RereCompiler.compile_to_c source with
  | Ret code _ =>
      exists ast,
        RereCompiler.parse_source source = Ret ast tt
        /\ Layout.lowers ast
        /\ code = join (str_of_char newline) (Layout.module_lines 0 ast)
  | Raise e _ =>
      (exists p',
          ParseError.raised e p'
          /\ forall ast, RereCompiler.parse_source source <> Ret ast tt)
      \/ (e = IndexError "list index out of range"
          /\ exists ast,
              RereCompiler.parse_source source = Ret ast tt
              /\ ~ Layout.lowers ast)
  | OutOfFuel => False
  end.
Proof.
  unfold RereCompiler.compile_to_c, RereCompiler.parse_source.
  destruct (tokenize_total source) as (toks & l & -> & _).
  pose proof (Parser_parse_total toks) as Htotal.
  destruct (Parser.parse (Parser.init toks)) as [ast p'|e p'|] eqn:Eparse;
    [| |contradiction]; cbn [detach].
  - rewrite generate_lines. cbv zeta.
    destruct (decide (Layout.lowers ast)) as [Hl|Hl].
    + rewrite (bool_decide_eq_true_2 _ Hl). exists ast.
      split; [reflexivity|]. split; [exact Hl | reflexivity].
    + rewrite (bool_decide_eq_false_2 _ Hl). right.
      split; [reflexivity|]. exists ast. split; [reflexivity | exact Hl].
  - left. exists p'.
    split; [exact (raises_parse_module _ _ _ Eparse)|].
    intros ast H. discriminate H.
Qed.


(** ** The name of the C file *)

Lemma prefix_length (a b : string) :
  String.prefix a b = true -> String.length a <= String.length b.
Proof.
  revert b. induction a as [|c a IH]; intros b H; [simpl; lia|].
  destruct b as [|d b]; [discriminate H|]. simpl in H.
  destruct (ascii_dec c d); [|discriminate H].
  apply IH in H. simpl. lia.
Qed.

Section Replace.

Variables old new : string.
Hypothesis shorter : String.length new < String.length old.

Lemma replace_from_length (s : string) :
  forall k, k <= String.length s ->
    String.length (Paths.replace_from old new k s) + k <= String.length s.
Proof.
  induction s as [|c s IH]; intros k Hk; [simpl in *; lia|].
  cbn [Paths.replace_from]. destruct k as [|k].
  - destruct (String.prefix old (String c s)) eqn:E.
    + apply prefix_length in E. simpl in E.
      rewrite length_append.
      specialize (IH (String.length old - 1) ltac:(lia)). simpl. lia.
    + specialize (IH 0 ltac:(lia)). simpl. lia.
  - simpl in Hk. specialize (IH k ltac:(lia)). simpl. lia.
Qed.

Lemma replace_occurs_shorter (s : string) :
  Paths.occurs old s = true ->
  String.length (Paths.replace old new s) < String.length s.
Proof.
  unfold Paths.replace. induction s as [|c s IH]; intros H.
  - change (Paths.occurs old EmptyString)
      with (String.prefix old EmptyString || false) in H.
    rewrite orb_false_r in H. apply prefix_length in H.
    simpl in H. lia.
  - cbn [Paths.replace_from].
    change (Paths.occurs old (String c s))
      with (String.prefix old (String c s) || Paths.occurs old s) in H.
    destruct (String.prefix old (String c s)) eqn:E.
    + apply prefix_length in E. simpl in E. rewrite length_append.
      pose proof (replace_from_length s (String.length old - 1) ltac:(lia)).
      simpl. lia.
    + cbn [orb] in H. specialize (IH H). simpl. lia.
Qed.

Lemma replace_no_occurrence (s : string) :
  Paths.occurs old s = false -> Paths.replace old new s = s.
Proof.
  unfold Paths.replace. induction s as [|c s IH]; intros H; [reflexivity|].
  cbn [Paths.replace_from].
  change (Paths.occurs old (String c s))
    with (String.prefix old (String c s) || Paths.occurs old s) in H.
  apply orb_false_iff in H as [-> H]. rewrite (IH H). reflexivity.
Qed.

Lemma replace_clean_prefix (a b : string) :
  Paths.starts_in old a b = false ->
  Paths.replace old new (a +:+ b) = a +:+ Paths.replace old new b.
Proof.
  unfold Paths.replace. induction a as [|c a IH]; intros H; [reflexivity|].
  change (Paths.starts_in old (String c a) b)
    with (String.prefix old (String c a +:+ b) || Paths.starts_in old a b) in H.
  apply orb_false_iff in H as [Hp H].
  rewrite append_cons in Hp |- *. cbn [Paths.replace_from].
  rewrite Hp, (IH H). reflexivity.
Qed.

Lemma replace_from_skip (k : nat) :
  forall a b : string,
    String.length a = k ->
    Paths.replace_from old new k (a +:+ b) = Paths.replace_from old new 0 b.
Proof.
  induction k as [|k IH]; intros a b Ha.
  - destruct a; [reflexivity | discriminate Ha].
  - destruct a as [|c a]; [discriminate Ha|]. injection Ha as Ha.
    rewrite append_cons. cbn [Paths.replace_from]. apply IH. exact Ha.
Qed.

Lemma prefix_append (a b : string) : String.prefix a (a +:+ b) = true.
Proof.
  induction a as [|c a IH]; [destruct b; reflexivity|].
  rewrite append_cons. simpl. destruct (ascii_dec c c); [exact IH | congruence].
Qed.

Lemma replace_occurrence (b : string) :
  0 < String.length old ->
  Paths.replace old new (old +:+ b) = new +:+ Paths.replace old new b.
Proof.
  intros Hpos. unfold Paths.replace.
  destruct old as [|c o] eqn:E; [simpl in Hpos; lia|].
  rewrite append_cons. cbn [Paths.replace_from].
  rewrite <- append_cons, prefix_append. f_equal.
  cbn [String.length].
  replace (S (String.length o) - 1) with (String.length o) by lia.
  rewrite <- E. apply replace_from_skip. reflexivity.
Qed.

End Replace.

(** X16: the path of the C file is the path of the source file itself
    exactly when [.rere] does not occur in it; on such a path the C text
    is written where the source text was read from. *)
Theorem X16_c_file_same_path (source_file : string) :
  Paths.c_file source_file = source_file
  <-> Paths.occurs ".rere" source_file = false.
Proof.
  unfold Paths.c_file. split.
  - intros H. destruct (Paths.occurs ".rere" source_file) eqn:E; [|reflexivity].
    pose proof (replace_occurs_shorter ".rere" ".c" ltac:(simpl; lia) _ E) as L.
    rewrite H in L. lia.
  - apply replace_no_occurrence.
Qed.

Lemma X16_c_file_same_path_witness :
  Paths.occurs ".rere" "prog.txt" = false
  /\ Paths.c_file "prog.txt" = "prog.txt"
  /\ Paths.c_file "prog.rere" <> "prog.rere".
Proof.
  split; [reflexivity|]. split.
  - exact (proj2 (X16_c_file_same_path "prog.txt") eq_refl).
  - intros H. apply (proj1 (X16_c_file_same_path "prog.rere")) in H.
    discriminate H.
Defined.

(** X17: every occurrence of [.rere] in the path is replaced, not only a
    final extension: when no occurrence starts inside [a], the C file of
    [a ++ .rere ++ b] is [a ++ .c] followed by the C file of [b].  With
    [b] empty this is the usual case [stem.rere] to [stem.c]. *)
Theorem X17_c_file_all_occurrences (a b : string) :
  Paths.starts_in ".rere" a (".rere" +:+ b) = false ->
  Paths.c_file (a +:+ ".rere" +:+ b) = a +:+ ".c" +:+ Paths.c_file b.
Proof.
  intros H. unfold Paths.c_file.
  rewrite (replace_clean_prefix ".rere" ".c" a _ H).
  rewrite (replace_occurrence ".rere" ".c" ltac:(simpl; lia) b)
    by (simpl; lia).
  reflexivity.
Qed.

Lemma X17_c_file_all_occurrences_witness :
  Paths.starts_in ".rere" "src" (".rere" +:+ "/prog.rere") = false
  /\ Paths.c_file ("src" +:+ ".rere" +:+ "/prog.rere")
     = "src" +:+ ".c" +:+ Paths.c_file "/prog.rere"
  /\ Paths.c_file ("prog" +:+ ".rere" +:+ EmptyString)
     = "prog" +:+ ".c" +:+ Paths.c_file EmptyString.
Proof.
  split; [reflexivity|]. split.
  - exact (X17_c_file_all_occurrences "src" "/prog.rere" eq_refl).
  - exact (X17_c_file_all_occurrences "prog" EmptyString eq_refl).
Defined.

(** ** Lexer and parser together *)

Lemma word_first_char (w : string) :
  Scan.is_word w = true ->
  exists c s, w = String c s /\ Lexer.is_ident_start c = true.
Proof.
  destruct w as [|c s]; [discriminate|]. cbn. intros H.
  apply andb_true_iff in H as [H _]. eauto.
Qed.

(** X18: the identifiers and string literals the lexer produces are never
    taken by the parser's loop tests for a delimiter or for the start of a
    return statement: the value of a collected token of type [IDENT] or
    [STRING] is none of [)], [,], [}] and [return].  So for tokens that
    come from a source text the requirement of X11 on names always holds. *)
Theorem X18_lexer_values_plain (source : string) :
  exists toks l,
    RereCompiler.tokenize source = Ret toks l
    /\ Forall (fun tok =>
                 type tok = "IDENT" \/ type tok = "STRING" ->
                 Grammar.plain (value tok))
              toks.
Proof.
  destruct (tokenize_tokens source) as (toks & l & Hrun & Htoks & _).
  exists toks, l. split; [exact Hrun|].
  eapply Forall_impl; [exact (tokens_of_ok _ _ Htoks)|].
  intros tok Hok Hty. destruct Hok as [w Hk | w Hw Hk | body Hb | c Hc].
  - exfalso. cbn in Hty. pose proof (upper_keyword_not_EOF w Hk) as [_ H].
    destruct Hty as [Hty|Hty]; [contradiction|].
    apply KEYWORDS_elem in Hk.
    destruct Hk as [-> | [-> | [-> | ->]]]; discriminate Hty.
  - cbn [value]. destruct (word_first_char w Hw) as (c & s & -> & Hc).
    unfold Grammar.plain.
    repeat split; intros H;
      try (injection H as -> _; vm_compute in Hc; discriminate Hc).
    apply Hk. rewrite H. apply KEYWORDS_elem. tauto.
  - unfold Grammar.plain. cbn. repeat split; discriminate.
  - exfalso. apply PUNCTUATION_elem in Hc. cbn in Hty.
    repeat destruct Hc as [Hc|Hc]; subst c;
      destruct Hty as [Hty|Hty]; discriminate Hty.
Qed.
